(** * xo-args: a shallow embedding of the argument parser of [xo-args.h]

    Strings are Stdlib [string]s (lists of ASCII characters; a C string is
    modelled by its characters before the NUL terminator).  A [size_t] index
    into argv is a [nat]; [int64_t] values are [Z] with the 64-bit range
    checked where the code checks it.  The C [print] function is modelled by
    an output log carried in the context: every call to [context->print]
    appends one [xo_event]. *)

From Stdlib Require Import String Ascii List ZArith Bool Lia.
Import ListNotations.
Open Scope string_scope.

(* ------------------------------------------------------------------------- *)
(** ** Value grammar *)

(** [isspace] in the C locale. *)
Definition isspace (c : ascii) : bool :=
  match nat_of_ascii c with
  | 32 | 9 | 10 | 11 | 12 | 13 => true
  | _ => false
  end.

(** The value of [c] as a digit in [base] (2..36), as [strtoll] reads it. *)
Definition digit_value (c : ascii) : option Z :=
  let n := Z.of_nat (nat_of_ascii c) in
  if (48 <=? n)%Z && (n <=? 57)%Z then Some (n - 48)%Z
  else if (97 <=? n)%Z && (n <=? 122)%Z then Some (n - 87)%Z
  else if (65 <=? n)%Z && (n <=? 90)%Z then Some (n - 55)%Z
  else None.

Definition digit_in_base (base : Z) (c : ascii) : option Z :=
  match digit_value c with
  | Some d => if (d <? base)%Z then Some d else None
  | None => None
  end.

(** The digit loop of [strtoll]: accumulates the digits of [base] with
    unbounded precision; returns the value, the number of digits read and the
    rest of the input (where [end_ptr] points). *)
Fixpoint strtoll_digits (base acc : Z) (s : string) : Z * nat * string :=
  match s with
  | EmptyString => (acc, 0%nat, s)
  | String c r =>
      match digit_in_base base c with
      | Some d =>
          let '(v, n, rest) := strtoll_digits base (acc * base + d)%Z r in
          (v, S n, rest)
      | None => (acc, 0%nat, s)
      end
  end.

Definition is_some {A} (o : option A) : bool :=
  match o with Some _ => true | None => false end.

Definition INT64_MAX : Z := (2 ^ 63 - 1)%Z.
Definition INT64_MIN : Z := (- 2 ^ 63)%Z.

(** [strtoll(input, &end_ptr, 0)] for an input whose first character is not
    white space (the only way [_xo_args_try_parse_int] calls it): optional
    sign, then base detection ([0x]/[0X] followed by a hexadecimal digit is
    hexadecimal, a leading [0] is octal, anything else decimal).  Returns the
    value, whether [errno] is [ERANGE], the text at [end_ptr], and whether
    [end_ptr] moved past [input] (some conversion happened).  As in glibc,
    [0x] followed by a non-hexadecimal character converts the [0] and leaves
    [end_ptr] on the [x]. *)
Definition strtoll0 (input : string) : Z * bool * string * bool :=
  let '(neg, s1) :=
    match input with
    | String "-" r => (true, r)
    | String "+" r => (false, r)
    | _ => (false, input)
    end in
  let '(base, s2) :=
    match s1 with
    | String "0" (String x (String d r)) =>
        if (Ascii.eqb x "x" || Ascii.eqb x "X")
           && is_some (digit_in_base 16 d)
        then (16%Z, String d r) else (8%Z, s1)
    | String "0" _ => (8%Z, s1)
    | _ => (10%Z, s1)
    end in
  let '(mag, ndigits, rest) := strtoll_digits base 0 s2 in
  let v := if neg then (- mag)%Z else mag in
  let erange := (INT64_MAX <? v)%Z || (v <? INT64_MIN)%Z in
  match ndigits with
  | O => (0%Z, false, input, false)
  | S _ =>
      (if (INT64_MAX <? v)%Z then INT64_MAX
       else if (v <? INT64_MIN)%Z then INT64_MIN else v,
       erange, rest, true)
  end.

(** [_xo_args_try_parse_int]: [None] is [return false]. *)
Definition _xo_args_try_parse_int (input : string) : option Z :=
  match input with
  | EmptyString => None
  | String c _ =>
      if isspace c then None
      else
        let '(long_val, erange, end_ptr, moved) := strtoll0 input in
        if erange || negb (String.eqb end_ptr "") || negb moved
        then None
        else Some long_val
  end.

(** [_xo_args_try_parse_bool]. *)
Definition _xo_args_try_parse_bool (input : string) : option bool :=
  if String.eqb input "0" || String.eqb input "false"
     || String.eqb input "False" || String.eqb input "FALSE"
  then Some false
  else if String.eqb input "1" || String.eqb input "true"
          || String.eqb input "True" || String.eqb input "TRUE"
  then Some true
  else None.

(* ------------------------------------------------------------------------- *)
(** ** Flags *)

Definition XO_ARGS_TYPE_STRING : Z := 1.
Definition XO_ARGS_TYPE_SWITCH : Z := 2.
Definition XO_ARGS_TYPE_BOOL : Z := 4.
Definition XO_ARGS_TYPE_INT : Z := 8.
Definition XO_ARGS_TYPE_DOUBLE : Z := 16.
Definition XO_ARGS_TYPE_STRING_ARRAY : Z := 32.
Definition XO_ARGS_TYPE_BOOL_ARRAY : Z := 64.
Definition XO_ARGS_TYPE_INT_ARRAY : Z := 128.
Definition XO_ARGS_TYPE_DOUBLE_ARRAY : Z := 256.
Definition XO_ARGS_ARG_OPTIONAL : Z := 0.
Definition XO_ARGS_ARG_REQUIRED : Z := 512.

(** [flags & bit] taken as a C condition. *)
Definition has_flag (flags bit : Z) : bool := negb (Z.land flags bit =? 0)%Z.

Definition _xo_args_arg_flag_is_array (flags : Z) : bool :=
  has_flag flags
    (Z.lor XO_ARGS_TYPE_STRING_ARRAY
       (Z.lor XO_ARGS_TYPE_INT_ARRAY
          (Z.lor XO_ARGS_TYPE_DOUBLE_ARRAY XO_ARGS_TYPE_BOOL_ARRAY))).

(** [all_types] of [xo_args_declare_arg]. *)
Definition all_types : Z :=
  List.fold_right Z.lor 0%Z
    [XO_ARGS_TYPE_STRING; XO_ARGS_TYPE_SWITCH; XO_ARGS_TYPE_BOOL;
     XO_ARGS_TYPE_INT; XO_ARGS_TYPE_DOUBLE; XO_ARGS_TYPE_BOOL_ARRAY;
     XO_ARGS_TYPE_INT_ARRAY; XO_ARGS_TYPE_DOUBLE_ARRAY;
     XO_ARGS_TYPE_STRING_ARRAY].

(** The bit-counting loop [for (; t; ++bits) t &= t - 1;].  The loop clears
    one set bit per turn; [t] is an [int]-sized enum value, so 32 turns
    always suffice. *)
Fixpoint count_bits_loop (fuel : nat) (t : Z) (bits : nat) : nat :=
  match fuel with
  | O => bits
  | S f => if (t =? 0)%Z then bits else count_bits_loop f (Z.land t (t - 1)) (S bits)
  end.

Definition type_bits (flags : Z) : nat :=
  count_bits_loop 32 (Z.land flags all_types) 0.

(* ------------------------------------------------------------------------- *)
(** ** Name validation *)

Definition _xo_isalnum (c : ascii) : bool :=
  let n := nat_of_ascii c in
  (Nat.leb 65 n && Nat.leb n 90) || (Nat.leb 97 n && Nat.leb n 122)
  || (Nat.leb 48 n && Nat.leb n 57) || Ascii.eqb c "-".

(** [_xo_isalnum_str(start, start + len)]: the loop runs [curr] from [start]
    while [curr != end - 1], so it tests every character but the last one.
    For the empty string [last] is [start - 1] and the first test reads the
    NUL terminator, which is not alphanumeric. *)
Fixpoint _xo_isalnum_str (s : string) : bool :=
  match s with
  | EmptyString => _xo_isalnum "000"
  | String _ EmptyString => true
  | String c r => _xo_isalnum c && _xo_isalnum_str r
  end.

(* ------------------------------------------------------------------------- *)
(** ** Strings as C reads them *)

(** [str[n]]: reading at the terminator (or past the data) gives NUL. *)
Definition char_at (s : string) (n : nat) : ascii :=
  match String.get n s with Some c => c | None => "000"%char end.

(** [&str[n]]. *)
Definition drop (n : nat) (s : string) : string :=
  substring n (String.length s - n) s.

(** [%.*s] with precision [n]. *)
Definition take (n : nat) (s : string) : string := substring 0 n s.

(* ------------------------------------------------------------------------- *)
(** ** Arguments, matches, the context *)

Section XoArgs.

(** [double] and [strtod]: the parser stores whatever [strtod] returns and the
    claims never inspect a double, so the development is generic in both. *)
Context {double : Type} (_xo_args_try_parse_double : string -> option double).

(** One element of the value union of [_xo_args_arg_single], or one element
    of the [array] buffer of [_xo_args_arg_array]. *)
Inductive xo_scalar :=
| XString (s : string)
| XBool (b : bool)
| XInt (z : Z)
| XDouble (d : double).

(** The value part of the two concrete argument structs: [Single None] is the
    uninitialised union of [_xo_args_arg_single]; [Array l] is the buffer of
    [_xo_args_arg_array] with [array_size = length l]. *)
Inductive xo_value :=
| Single (v : option xo_scalar)
| Array (elems : list xo_scalar).

Record xo_args_arg := mk_arg {
  name : string;
  short_name : option string;
  value_tip : option string;
  description : option string;
  flags : Z;
  has_value : bool;
  value : xo_value
}.

Inductive _xo_args_arg_match_type :=
| _XO_ARGS_ARG_MATCH_TYPE_NAME
| _XO_ARGS_ARG_MATCH_TYPE_ASSIGN_NAME
| _XO_ARGS_ARG_MATCH_TYPE_SHORT_NAME
| _XO_ARGS_ARG_MATCH_TYPE_ASSIGN_SHORT_NAME.

Record _xo_args_arg_match := mk_match {
  match_type : _xo_args_arg_match_type;
  matched_name : string
}.

(** Everything the library passes to [context->print]. *)
Inductive xo_event :=
| EvNameConflict (name : string)          (* "argument name conflict" *)
| EvShortNameConflict (short : string)    (* "argument short_name conflict" *)
| EvMultiple (tok : string)               (* "%s was provided multiple times" *)
| EvNoValue (tok : string)                (* "No value provided for %s" *)
| EvInvalidBool (tok : string)            (* "Invalid value provided for %s" *)
| EvInvalidInt (tok : string)             (* "Value for %s is not a valid integer" *)
| EvInvalidNumber (tok : string)          (* "Value for %s is not a valid number" *)
| EvUnknown (tok : string)                (* unknown argument %s *)
| EvTryHelp (app : string)                (* "Try: %s --help" *)
| EvRequired (name : string) (short : option string) (* "argument --%s [/ -%s] is required." *)
| EvText (s : string)                     (* plain text of help / version output *)
| EvHelpArgs (args : list xo_args_arg).   (* the argument table of the help text *)

(** The error and hint messages, as opposed to help/version text. *)
Definition is_diagnostic (e : xo_event) : bool :=
  match e with
  | EvText _ | EvHelpArgs _ => false
  | _ => true
  end.

Record xo_args_ctx := mk_ctx {
  argv : list string;
  app_name : string;
  app_version : option string;
  app_documentation : option string;
  args : list xo_args_arg;
  printed : list xo_event
}.

Definition argc (ctx : xo_args_ctx) : nat := length (argv ctx).

Definition print (ctx : xo_args_ctx) (evs : list xo_event) : xo_args_ctx :=
  mk_ctx (argv ctx) (app_name ctx) (app_version ctx) (app_documentation ctx)
    (args ctx) (printed ctx ++ evs).

Definition set_args (ctx : xo_args_ctx) (a : list xo_args_arg) : xo_args_ctx :=
  mk_ctx (argv ctx) (app_name ctx) (app_version ctx) (app_documentation ctx)
    a (printed ctx).

(** [_xo_args_arg_matches_input], returning the match instead of filling
    [out_match]. *)
Definition _xo_args_arg_matches_input (arg : xo_args_arg) (str : string)
  : option _xo_args_arg_match :=
  let str_len := String.length str in
  if Nat.eqb str_len 0 then None
  else if Ascii.eqb (char_at str 0) "-" then
    if Nat.ltb 2 str_len && Ascii.eqb (char_at str 1) "-"
       && String.prefix (name arg) (drop 2 str)
    then
      if Nat.eqb (str_len - 2) (String.length (name arg)) then
        Some (mk_match _XO_ARGS_ARG_MATCH_TYPE_NAME (name arg))
      else if Ascii.eqb (char_at str (String.length (name arg) + 2)) "=" then
        Some (mk_match _XO_ARGS_ARG_MATCH_TYPE_ASSIGN_NAME (name arg))
      else None
    else
      match short_name arg with
      | Some sn =>
          if String.prefix sn (drop 1 str) then
            if Nat.eqb (str_len - 1) (String.length sn) then
              Some (mk_match _XO_ARGS_ARG_MATCH_TYPE_SHORT_NAME sn)
            else if Ascii.eqb (char_at str (String.length sn + 1)) "=" then
              Some (mk_match _XO_ARGS_ARG_MATCH_TYPE_ASSIGN_SHORT_NAME sn)
            else None
          else None
      | None => None
      end
  else None.

(** [true] when some declared argument matches [tok] (the inner [for j]
    loop of the array branches). *)
Definition any_arg_matches (all : list xo_args_arg) (tok : string) : bool :=
  existsb (fun a => is_some (_xo_args_arg_matches_input a tok)) all.

(* ------------------------------------------------------------------------- *)
(** ** Declaration *)

(** The conflict loop of [xo_args_declare_arg]: per existing argument, the
    name is compared first, then the short name. *)
Fixpoint find_conflict (nm : string) (sn : option string)
    (existing : list xo_args_arg) : option xo_event :=
  match existing with
  | [] => None
  | e :: r =>
      if Nat.eqb (String.length nm) (String.length (name e))
         && String.eqb (name e) nm
      then Some (EvNameConflict nm)
      else
        match sn, short_name e with
        | Some s, Some es =>
            if Nat.eqb (String.length s) (String.length es) && String.eqb es s
            then Some (EvShortNameConflict s)
            else find_conflict nm sn r
        | _, _ => find_conflict nm sn r
        end
  end.

(** The built-in value tips, tested in the order of the source. *)
Definition default_value_tip (fl : Z) : option string :=
  if has_flag fl XO_ARGS_TYPE_STRING then Some "<text>"
  else if has_flag fl XO_ARGS_TYPE_INT then Some "<integer>"
  else if has_flag fl XO_ARGS_TYPE_DOUBLE then Some "<number>"
  else if has_flag fl XO_ARGS_TYPE_BOOL then Some "<true|false>"
  else if has_flag fl XO_ARGS_TYPE_STRING_ARRAY then Some "[text]"
  else if has_flag fl XO_ARGS_TYPE_INT_ARRAY then Some "[integer]"
  else if has_flag fl XO_ARGS_TYPE_DOUBLE_ARRAY then Some "[number]"
  else if has_flag fl XO_ARGS_TYPE_BOOL_ARRAY then Some "[true|false]"
  else None.

(** The flags stored in a new argument: String when no type bit is given,
    and a required Switch loses its required bit. *)
Definition declared_flags (fl : Z) : Z :=
  let f1 := if (Z.land all_types fl =? 0)%Z
            then Z.lor fl XO_ARGS_TYPE_STRING else fl in
  let sr := Z.lor XO_ARGS_TYPE_SWITCH XO_ARGS_ARG_REQUIRED in
  if (Z.land fl sr =? sr)%Z then Z.land f1 (Z.lnot XO_ARGS_ARG_REQUIRED)
  else f1.

(** [xo_args_declare_arg] for a non-null context and name, as built without
    assertions ([NDEBUG]): the handle is the index of the new argument in
    [args] ([None] is [NULL]). *)
Definition xo_args_declare_arg (ctx : xo_args_ctx) (nm : string)
    (sn : option string) (vt desc : option string) (fl : Z)
  : option nat * xo_args_ctx :=
  let short_name_len :=
    match sn with Some s => String.length s | None => 0 end in
  if negb (_xo_isalnum_str nm) then (None, ctx)
  else if Nat.ltb 0 short_name_len
          && negb (match sn with Some s => _xo_isalnum_str s | None => true end)
  then (None, ctx)
  else if Nat.ltb 1 (type_bits fl) then (None, ctx)
  else
    match find_conflict nm sn (args ctx) with
    | Some ev => (None, print ctx [ev])
    | None =>
        let f := declared_flags fl in
        let a := mk_arg nm sn
                   (match vt with Some t => Some t | None => default_value_tip f end)
                   desc f false
                   (if _xo_args_arg_flag_is_array fl then Array [] else Single None) in
        (Some (length (args ctx)), set_args ctx (args ctx ++ [a]))
    end.

(* ------------------------------------------------------------------------- *)
(** ** Parsing one argument *)

Definition set_value (a : xo_args_arg) (hv : bool) (v : xo_value) : xo_args_arg :=
  mk_arg (name a) (short_name a) (value_tip a) (description a) (flags a) hv v.

Definition is_assign (m : _xo_args_arg_match) : bool :=
  match match_type m with
  | _XO_ARGS_ARG_MATCH_TYPE_ASSIGN_NAME
  | _XO_ARGS_ARG_MATCH_TYPE_ASSIGN_SHORT_NAME => true
  | _ => false
  end.

(** [offset]: 3 for ["--"] and ["="], 2 for ["-"] and ["="]. *)
Definition assign_offset (m : _xo_args_arg_match) : nat :=
  (match match_type m with _XO_ARGS_ARG_MATCH_TYPE_ASSIGN_NAME => 3 | _ => 2 end)
  + String.length (matched_name m).

Definition array_elems (a : xo_args_arg) : list xo_scalar :=
  match value a with Array l => l | Single _ => [] end.

(** Result of [_xo_args_try_parse_arg]: the returned bool, the new
    [*argv_index], the argument after the call, and what was printed. *)
Definition parse_result : Type := (bool * nat * xo_args_arg * list xo_event)%type.

(** The branches of the scalar types String, Bool, Int and Double: an
    assignment takes the text after ['='], otherwise the next token is the
    value.  [assign_err] and [err] are the messages on a grammar failure. *)
Definition parse_single (ctx : xo_args_ctx) (argv_index : nat) (a : xo_args_arg)
    (m : _xo_args_arg_match) (parse : string -> option xo_scalar)
    (assign_err err : xo_event) : parse_result :=
  let tok := nth argv_index (argv ctx) "" in
  if is_assign m then
    match parse (drop (assign_offset m) tok) with
    | Some v => (true, argv_index, set_value a true (Single (Some v)), [])
    | None => (false, argv_index, a, [assign_err])
    end
  else
    let next_index := S argv_index in
    match nth_error (argv ctx) next_index with
    | None => (false, argv_index, a, [EvNoValue tok])
    | Some t =>
        match parse t with
        | Some v => (true, next_index, set_value a true (Single (Some v)), [])
        | None => (false, argv_index, a, [err])
        end
    end.

(** The "consume every following value until we see a valid argument" loop
    shared by the four array branches.  [toks] are the tokens from
    [next_index] on, [argv_index] the index of the last consumed token. *)
Fixpoint _xo_args_slurp (all : list xo_args_arg) (parse : string -> option xo_scalar)
    (err : xo_event) (toks : list string) (next_index argv_index : nat)
    (acc : list xo_scalar) : bool * nat * list xo_scalar * list xo_event :=
  match toks with
  | [] => (true, argv_index, acc, [])
  | t :: r =>
      if any_arg_matches all t then (true, argv_index, acc, [])
      else
        match parse t with
        | Some v => _xo_args_slurp all parse err r (S next_index) next_index (acc ++ [v])
        | None => (false, argv_index, acc, [err])
        end
  end.

(** An array branch: the next token is the mandatory first element (whatever
    it looks like), then [_xo_args_slurp].  The match type is not looked at. *)
Definition parse_array (ctx : xo_args_ctx) (argv_index : nat) (a : xo_args_arg)
    (parse : string -> option xo_scalar) (err : xo_event) : parse_result :=
  let argv_name := nth argv_index (argv ctx) "" in
  let next_index := S argv_index in
  match nth_error (argv ctx) next_index with
  | None => (false, argv_index, a, [EvNoValue argv_name])
  | Some t =>
      match parse t with
      | None => (false, argv_index, a, [err])
      | Some v =>
          let '(ok, idx, elems, evs) :=
            _xo_args_slurp (args ctx) parse err (skipn (S next_index) (argv ctx))
              (S next_index) next_index (array_elems a ++ [v]) in
          (ok, idx, set_value a true (Array elems), evs)
      end
  end.

Definition parse_string (s : string) : option xo_scalar := Some (XString s).
Definition parse_bool_scalar (s : string) : option xo_scalar :=
  option_map XBool (_xo_args_try_parse_bool s).
Definition parse_int_scalar (s : string) : option xo_scalar :=
  option_map XInt (_xo_args_try_parse_int s).
Definition parse_double_scalar (s : string) : option xo_scalar :=
  option_map XDouble (_xo_args_try_parse_double s).

(** [_xo_args_try_parse_arg]. *)
Definition _xo_args_try_parse_arg (ctx : xo_args_ctx) (argv_index : nat)
    (a : xo_args_arg) (m : _xo_args_arg_match) : parse_result :=
  let tok := nth argv_index (argv ctx) "" in
  let fl := flags a in
  if has_value a && negb (_xo_args_arg_flag_is_array fl) then
    (false, argv_index, a, [EvMultiple tok])
  else if has_flag fl XO_ARGS_TYPE_STRING then
    parse_single ctx argv_index a m parse_string (EvNoValue tok) (EvNoValue tok)
  else if has_flag fl XO_ARGS_TYPE_SWITCH then
    (true, argv_index, set_value a true (value a), [])
  else if has_flag fl XO_ARGS_TYPE_BOOL then
    parse_single ctx argv_index a m parse_bool_scalar (EvInvalidBool tok) (EvInvalidBool tok)
  else if has_flag fl XO_ARGS_TYPE_INT then
    parse_single ctx argv_index a m parse_int_scalar
      (EvInvalidInt (take (assign_offset m - 1) tok)) (EvInvalidInt tok)
  else if has_flag fl XO_ARGS_TYPE_DOUBLE then
    parse_single ctx argv_index a m parse_double_scalar
      (EvInvalidNumber (take (assign_offset m - 1) tok)) (EvInvalidNumber tok)
  else if has_flag fl XO_ARGS_TYPE_STRING_ARRAY then
    parse_array ctx argv_index a parse_string (EvNoValue tok)
  else if has_flag fl XO_ARGS_TYPE_INT_ARRAY then
    parse_array ctx argv_index a parse_int_scalar (EvInvalidInt tok)
  else if has_flag fl XO_ARGS_TYPE_DOUBLE_ARRAY then
    parse_array ctx argv_index a parse_double_scalar (EvInvalidNumber tok)
  else if has_flag fl XO_ARGS_TYPE_BOOL_ARRAY then
    parse_array ctx argv_index a parse_bool_scalar (EvInvalidBool tok)
  else (true, argv_index, a, []).

(** The element grammar and the grammar-error message of each array branch
    of [_xo_args_try_parse_arg] ([tok] is the flag token). *)
Definition array_elem_parser (T : Z) : string -> option xo_scalar :=
  if (T =? XO_ARGS_TYPE_STRING_ARRAY)%Z then parse_string
  else if (T =? XO_ARGS_TYPE_INT_ARRAY)%Z then parse_int_scalar
  else if (T =? XO_ARGS_TYPE_DOUBLE_ARRAY)%Z then parse_double_scalar
  else parse_bool_scalar.

Definition array_err (T : Z) (tok : string) : xo_event :=
  if (T =? XO_ARGS_TYPE_STRING_ARRAY)%Z then EvNoValue tok
  else if (T =? XO_ARGS_TYPE_INT_ARRAY)%Z then EvInvalidInt tok
  else if (T =? XO_ARGS_TYPE_DOUBLE_ARRAY)%Z then EvInvalidNumber tok
  else EvInvalidBool tok.

(* ------------------------------------------------------------------------- *)
(** ** Submission *)

(** [context->args[j] = a]. *)
Fixpoint list_set {A} (j : nat) (x : A) (l : list A) : list A :=
  match l, j with
  | [], _ => []
  | _ :: r, O => x :: r
  | y :: r, S j' => y :: list_set j' x r
  end.

(** The [for j] loop of [xo_args_submit]: the first declared argument that
    matches [tok], its index and the match record. *)
Fixpoint find_arg_from (j : nat) (all : list xo_args_arg) (tok : string)
  : option (nat * xo_args_arg * _xo_args_arg_match) :=
  match all with
  | [] => None
  | a :: r =>
      match _xo_args_arg_matches_input a tok with
      | Some m => Some (j, a, m)
      | None => find_arg_from (S j) r tok
      end
  end.

(** The scanning loop [for (size_t i = 1; i < argc; ++i)] of
    [xo_args_submit], from index [i].  Every turn moves [i] forward by at
    least one, so [argc] turns ([fuel]) always reach the end of argv. *)
Fixpoint submit_scan (fuel : nat) (ctx : xo_args_ctx) (i : nat)
  : bool * xo_args_ctx :=
  match fuel with
  | O => (true, ctx)
  | S f =>
      match nth_error (argv ctx) i with
      | None => (true, ctx)
      | Some tok =>
          if Nat.eqb (String.length tok) 0 then submit_scan f ctx (S i)
          else if Nat.eqb (String.length tok) 1
                  || negb (Ascii.eqb (char_at tok 0) "-") then
            (false, print ctx [EvUnknown tok; EvTryHelp (app_name ctx)])
          else
            match find_arg_from 0 (args ctx) tok with
            | None => (false, print ctx [EvUnknown tok; EvTryHelp (app_name ctx)])
            | Some (j, a, m) =>
                let '(ok, i', a', evs) := _xo_args_try_parse_arg ctx i a m in
                let ctx' := print (set_args ctx (list_set j a' (args ctx))) evs in
                if ok then submit_scan f ctx' (S i')
                else (false, print ctx' [EvTryHelp (app_name ctx)])
            end
      end
  end.

(** Dereferencing a handle ([NULL] is [None]). *)
Definition deref (ctx : xo_args_ctx) (h : option nat) : option xo_args_arg :=
  match h with Some j => nth_error (args ctx) j | None => None end.

(** [value._bool] of a single argument. *)
Definition single_bool (a : xo_args_arg) : bool :=
  match value a with Single (Some (XBool b)) => b | _ => false end.

(** [xo_args_try_get_bool]: [None] is [return false], [Some b] is
    [return true] with [*out_bool = b]. *)
Definition xo_args_try_get_bool (arg : option xo_args_arg) : option bool :=
  match arg with
  | None => None
  | Some a =>
      let type_is_bool := has_flag (flags a) XO_ARGS_TYPE_BOOL in
      let type_is_switch := has_flag (flags a) XO_ARGS_TYPE_SWITCH in
      if negb type_is_bool && negb type_is_switch then None
      else if type_is_bool then
        (if has_value a then Some (single_bool a) else None)
      else Some (has_value a)
  end.

Definition scalar_int (x : xo_scalar) : Z :=
  match x with XInt z => z | _ => 0%Z end.
Definition scalar_string (x : xo_scalar) : string :=
  match x with XString s => s | _ => "" end.

(** [xo_args_try_get_int_array]: the elements [array[0..array_size)]. *)
Definition xo_args_try_get_int_array (arg : option xo_args_arg) : option (list Z) :=
  match arg with
  | None => None
  | Some a =>
      if negb (has_flag (flags a) XO_ARGS_TYPE_INT_ARRAY) then None
      else if has_value a then Some (map scalar_int (array_elems a)) else None
  end.

(** [xo_args_try_get_string_array]. *)
Definition xo_args_try_get_string_array (arg : option xo_args_arg)
  : option (list string) :=
  match arg with
  | None => None
  | Some a =>
      if negb (has_flag (flags a) XO_ARGS_TYPE_STRING_ARRAY) then None
      else if has_value a then Some (map scalar_string (array_elems a)) else None
  end.

(** [xo_args_try_get_string]. *)
Definition xo_args_try_get_string (arg : option xo_args_arg) : option string :=
  match arg with
  | None => None
  | Some a =>
      if negb (has_flag (flags a) XO_ARGS_TYPE_STRING) then None
      else if has_value a then
        match value a with Single (Some (XString s)) => Some s | _ => None end
      else None
  end.

Definition is_required (a : xo_args_arg) : bool :=
  has_flag (flags a) XO_ARGS_ARG_REQUIRED.

(** The banner line shared by the help text and [xo_args_print_version]. *)
Definition version_line (app v : string) : string :=
  app ++ " version " ++ v ++ String "010" "".

(** [xo_args_print_version]. *)
Definition xo_args_print_version (ctx : xo_args_ctx) : list xo_event :=
  match app_version ctx with
  | Some v => [EvText (version_line (app_name ctx) v)]
  | None => []
  end.

(** [xo_args_print_help]: the banner, the usage line and the documentation
    block are printed as in the source; the argument table that follows
    (column layout of [_xo_args_print_arg_help]) is one [EvHelpArgs] event
    carrying the arguments it is rendered from. *)
Definition xo_args_print_help (ctx : xo_args_ctx) : list xo_event :=
  let all := args ctx in
  [EvText (match app_version ctx with
           | Some v => version_line (app_name ctx) v
           | None => app_name ctx ++ String "010" ""
           end);
   EvText ("Usage: " ++ app_name ctx)]
  ++ map (fun a => EvText (" --" ++ name a)) (filter is_required all)
  ++ (if existsb (fun a => negb (is_required a)) all
      then [EvText (" [OPTION]..." ++ String "010" "")] else [])
  ++ (match app_documentation ctx with
      | Some d => [EvText ("DOCUMENTATION" ++ String "010" "" ++ d ++ String "010" "")]
      | None => []
      end)
  ++ [EvHelpArgs all].

(** The required-argument loop: the first required argument without a
    value, in declaration order. *)
Fixpoint first_missing_required (all : list xo_args_arg) : option xo_args_arg :=
  match all with
  | [] => None
  | a :: r => if is_required a && negb (has_value a) then Some a
              else first_missing_required r
  end.

(** The three checks of [xo_args_submit] that follow a scan without error. *)
Definition submit_checks (ctx : xo_args_ctx) (arg_help arg_version : option nat)
  : bool * xo_args_ctx :=
  if match xo_args_try_get_bool (deref ctx arg_help) with
     | Some true => true | _ => false end
  then (false, print ctx (xo_args_print_help ctx))
  else if is_some (app_version ctx)
          && match xo_args_try_get_bool (deref ctx arg_version) with
             | Some true => true | _ => false end
  then (false, print ctx (xo_args_print_help ctx))
  else
    match first_missing_required (args ctx) with
    | Some a => (false, print ctx [EvRequired (name a) (short_name a);
                                   EvTryHelp (app_name ctx)])
    | None => (true, ctx)
    end.

(** The implicit [help] / [version] declarations made by [xo_args_submit]. *)
Definition declare_implicit (ctx : xo_args_ctx)
  : option nat * option nat * xo_args_ctx :=
  let '(arg_help, ctx1) :=
    xo_args_declare_arg ctx "help" (Some "h") None (Some "show this message")
      XO_ARGS_TYPE_SWITCH in
  match app_version ctx1 with
  | Some _ =>
      let '(arg_version, ctx2) :=
        xo_args_declare_arg ctx1 "version" (Some "v") None
          (Some "shows the program version") XO_ARGS_TYPE_SWITCH in
      (arg_help, arg_version, ctx2)
  | None => (arg_help, None, ctx1)
  end.

(** [xo_args_submit] on a non-null context. *)
Definition xo_args_submit (ctx : xo_args_ctx) : bool * xo_args_ctx :=
  let '(arg_help, arg_version, ctx2) := declare_implicit ctx in
  let '(ok, ctx3) := submit_scan (argc ctx2) ctx2 1 in
  if ok then submit_checks ctx3 arg_help arg_version else (false, ctx3).

(** The handles of the implicit [help] and [version] switches, and the
    result of the scanning loop, as [xo_args_submit] computes them. *)
Definition implicit_handles (ctx : xo_args_ctx) : option nat * option nat :=
  let '(arg_help, arg_version, _) := declare_implicit ctx in (arg_help, arg_version).

Definition scanned (ctx : xo_args_ctx) : bool * xo_args_ctx :=
  let '(_, _, ctx2) := declare_implicit ctx in submit_scan (argc ctx2) ctx2 1.

(** [xo_args_create_ctx_advanced] with an explicit [app_name] (the default
    taken from the basename of [argv[0]] is not modelled) and the default
    allocator: [None] when [argc < 1]. *)
Definition xo_args_create_ctx_advanced (argv0 : list string) (app : string)
    (version doc : option string) : option xo_args_ctx :=
  match argv0 with
  | [] => None
  | _ => Some (mk_ctx argv0 app version doc [] [])
  end.

End XoArgs.

(* ------------------------------------------------------------------------- *)
(** ** The application name *)

(** [g_xo_args_path_separators] of a non-Windows build. *)
Definition g_xo_args_path_separators : list ascii := ["/"%char].

(** The inner [for i] loop of [_xo_args_basename]. *)
Definition is_path_sep (c : ascii) : bool :=
  existsb (Ascii.eqb c) g_xo_args_path_separators.

(** The first loop of [_xo_args_basename]: [it] runs from [end] (where it
    reads the terminator) down to [path + 1], and stops at the first path
    separator; [path[0]] itself is never tested.  The result is the offset
    of [basename_start], [min(it + 1, end)] at a separator and [0] when the
    loop runs out. *)
Fixpoint basename_start_from (path : string) (it : nat) : nat :=
  match it with
  | O => 0
  | S k =>
      if is_path_sep (char_at path it)
      then Nat.min (it + 1) (String.length path)
      else basename_start_from path k
  end.

(** The second loop: [it] runs from [basename_start] towards [end] and stops
    at the first ['.']; the result is the offset of [basename_end], the last
    character before it (or [basename_start] when there is none).  [fuel] is
    the distance to [end]. *)
Fixpoint basename_end_from (path : string) (fuel it basename_end : nat) : nat :=
  match fuel with
  | O => basename_end
  | S f =>
      if Ascii.eqb (char_at path it) "." then basename_end
      else basename_end_from path f (S it) it
  end.

(** [_xo_args_basename] on a non-null [path] ([None] is [NULL]).  [memcpy]
    copies [basename_length] bytes from [basename_start]; when
    [basename_start] is [end] the byte copied is the terminator, so the
    result is the empty string, as [substring] gives it. *)
Definition _xo_args_basename (path : string) : option string :=
  let path_len := String.length path in
  if Nat.eqb path_len 0 then None
  else
    let basename_start := basename_start_from path path_len in
    let basename_end :=
      basename_end_from path (path_len - basename_start) basename_start basename_start in
    let basename_length := (basename_end - basename_start) + 1 in
    if Nat.leb 1 basename_length
    then Some (substring basename_start basename_length path)
    else None.

(** No character of [s] is a path separator. *)
Definition no_sep (s : string) : bool :=
  forallb (fun c => negb (is_path_sep c)) (list_ascii_of_string s).

(** No character of [s] is a path separator or a ['.']. *)
Definition plain_name (s : string) : bool :=
  forallb (fun c => negb (is_path_sep c || Ascii.eqb c ".")) (list_ascii_of_string s).

(** The [app_name] chosen by [xo_args_create_ctx_advanced]: the given one,
    else the basename of [argv[0]], else ["app"]. *)
Definition default_app_name (argv_0 : string) (app_name : option string) : string :=
  match app_name with
  | Some a => a
  | None =>
      match _xo_args_basename argv_0 with
      | Some b => b
      | None => "app"
      end
  end.

(** [xo_args_create_ctx]: [xo_args_create_ctx_advanced] with every optional
    parameter [NULL]. *)
Definition xo_args_create_ctx {double : Type} (argv0 : list string)
  : option (@xo_args_ctx double) :=
  xo_args_create_ctx_advanced argv0 (default_app_name (hd "" argv0) None) None None.

(* ------------------------------------------------------------------------- *)
(** ** [printf("%lld")] *)

(** The decimal digits of [p > 0] in front of [acc]; [fuel] bounds the
    number of digits. *)
Fixpoint pos_to_dec (fuel : nat) (p : Z) (acc : string) : string :=
  match fuel with
  | O => acc
  | S f =>
      let acc' := String (ascii_of_nat (48 + Z.to_nat (p mod 10))) acc in
      if (p <? 10)%Z then acc' else pos_to_dec f (p / 10)%Z acc'
  end.

(** [%lld] of a 64-bit integer (at most 19 digits). *)
Definition lld (z : Z) : string :=
  if (z =? 0)%Z then "0"
  else if (z <? 0)%Z then "-" ++ pos_to_dec 20 (- z) ""
  else pos_to_dec 20 z "".

(* ------------------------------------------------------------------------- *)
(** ** The array buffer *)

(** [_xo_args_arg_array] with its allocation: [array] is the buffer of
    [array_reserved] cells, [None] for a cell never written. *)
Record xo_array (X : Type) := mk_array {
  array_reserved : nat;
  array_size : nat;
  array : list (option X)
}.
Arguments mk_array {X}.
Arguments array_reserved {X}.
Arguments array_size {X}.
Arguments array {X}.

(** An array argument as [xo_args_declare_arg] leaves it. *)
Definition declared_array {X} : xo_array X := mk_array 0 0 [].

(** [realloc] to [n] cells: the first cells keep their contents. *)
Definition realloc_cells {X} (buf : list (option X)) (n : nat) : list (option X) :=
  firstn n buf ++ repeat None (n - length buf).

Definition _xo_args_arg_array_init {X} : xo_array X := mk_array 2 0 (repeat None 2).

(** [_xo_args_arg_array_push]. *)
Definition _xo_args_arg_array_push {X} (arr : xo_array X) (v : X) : xo_array X :=
  let arr1 := if Nat.eqb (array_reserved arr) 0 then _xo_args_arg_array_init else arr in
  let arr2 :=
    if Nat.eqb (array_reserved arr1) (array_size arr1)
    then mk_array (array_reserved arr1 * 2) (array_size arr1)
           (realloc_cells (array arr1) (array_reserved arr1 * 2))
    else arr1 in
  mk_array (array_reserved arr2) (S (array_size arr2))
    (list_set (array_size arr2) (Some v) (array arr2)).

(** The invariant of an array buffer holding [vs]: [array_size] cells in
    use out of [array_reserved], which is 0 or a power of two at least 2. *)
Definition buffer_holds {X} (arr : xo_array X) (vs : list X) : Prop :=
  (array_size arr = length vs /\ length (array arr) = array_reserved arr
  /\ array_size arr <= array_reserved arr
  /\ firstn (array_size arr) (array arr) = map Some vs
  /\ ((array_reserved arr = 0 /\ vs = [])
      \/ exists k, array_reserved arr = 2 ^ S k
           /\ (array_reserved arr = 2 \/ array_reserved arr < 2 * array_size arr)))%nat.

(* ------------------------------------------------------------------------- *)
(** ** Help table, getters, submission *)

Section XoArgsMore.
Context {double : Type}.
Implicit Types (a : @xo_args_arg double) (ctx : @xo_args_ctx double).

(** [arg->value_tip], [""] for [NULL] ([value_tip_length] is 0 for both). *)
Definition tip_text a : string :=
  match value_tip a with Some t => t | None => "" end.

(** [left_buffer] of [_xo_args_print_arg_help]: what [snprintf] writes into
    128 bytes, at most 127 characters. *)
Definition arg_help_left a : string :=
  let has_tip := negb (Nat.eqb (String.length (tip_text a)) 0) in
  take 127
    (match short_name a with
     | Some sn =>
         if Nat.eqb (String.length (name a)) (String.length sn)
            && String.eqb (name a) sn then
           if has_tip then "  -" ++ sn ++ " " ++ tip_text a else "  -" ++ sn
         else if has_tip then "  --" ++ name a ++ ", -" ++ sn ++ " " ++ tip_text a
         else "  --" ++ name a ++ ", -" ++ sn
     | None =>
         if has_tip then "  --" ++ name a ++ " " ++ tip_text a else "  --" ++ name a
     end).

(** [%*s] with an empty string. *)
Fixpoint spaces (n : nat) : string :=
  match n with O => "" | S k => String " " (spaces k) end.

(** [_xo_args_print_arg_help]: the padded left column, the description
    (passed to [print] as its format) and the line end. *)
Definition _xo_args_print_arg_help a (left_column_width : nat) : list (@xo_event double) :=
  let left_buffer := arg_help_left a in
  let left_buffer_len := String.length left_buffer in
  let whitespace_needed :=
    if Nat.ltb left_column_width left_buffer_len then 0
    else left_column_width - left_buffer_len in
  [EvText (left_buffer ++ spaces whitespace_needed)]
  ++ (match description a with Some d => [EvText d] | None => [] end)
  ++ [EvText (String "010" "")].

(** [arg_column_space_needed] of [xo_args_print_help]. *)
Definition arg_column_space_needed a : nat :=
  let tip := if Nat.eqb (String.length (tip_text a)) 0 then 0
             else String.length (tip_text a) + 1 in
  match short_name a with
  | Some sn =>
      if Nat.eqb (String.length (name a)) (String.length sn) && String.eqb sn (name a)
      then 7 + String.length sn + tip
      else 8 + String.length (name a) + tip + (2 + String.length sn)
  | None => 8 + String.length (name a) + tip
  end.

(** The [left_column_width] loop. *)
Definition left_column_width (all : list (@xo_args_arg double)) : nat :=
  fold_left (fun w a => if Nat.ltb w (arg_column_space_needed a)
                        then arg_column_space_needed a else w) all 0.

(** The argument table that ends [xo_args_print_help] (the [EvHelpArgs]
    event of [xo_args_print_help], rendered). *)
Definition help_table (all : list (@xo_args_arg double)) : list (@xo_event double) :=
  let w := left_column_width all in
  let any_required := existsb is_required all in
  let any_optional := existsb (fun a => negb (is_required a)) all in
  (if any_required then
     (if any_optional then [EvText ("REQUIRED ARGUMENTS:" ++ String "010" "")] else [])
     ++ flat_map (fun a => _xo_args_print_arg_help a w) (filter is_required all)
   else [])
  ++ (if any_optional then
        (if any_required then [EvText ("OPTIONAL ARGUMENTS:" ++ String "010" "")] else [])
        ++ flat_map (fun a => _xo_args_print_arg_help a w)
             (filter (fun a => negb (is_required a)) all)
      else []).

(** [value._int] of a single argument. *)
Definition single_int a : Z :=
  match value a with Single (Some (XInt z)) => z | _ => 0%Z end.

(** [xo_args_try_get_int]. *)
Definition xo_args_try_get_int (arg : option (@xo_args_arg double)) : option Z :=
  match arg with
  | None => None
  | Some a =>
      if negb (has_flag (flags a) XO_ARGS_TYPE_INT) then None
      else if has_value a then Some (single_int a) else None
  end.

Definition scalar_bool (x : @xo_scalar double) : bool :=
  match x with XBool b => b | _ => false end.

(** [xo_args_try_get_bool_array]. *)
Definition xo_args_try_get_bool_array (arg : option (@xo_args_arg double))
  : option (list bool) :=
  match arg with
  | None => None
  | Some a =>
      if negb (has_flag (flags a) XO_ARGS_TYPE_BOOL_ARRAY) then None
      else if has_value a then Some (map scalar_bool (array_elems a)) else None
  end.

(** The context [xo_args_submit] scans: the given one with the implicit
    [help] and [version] switches declared. *)
Definition implicit_ctx ctx : @xo_args_ctx double :=
  let '(_, _, c) := declare_implicit ctx in c.

(** What [xo_args_declare_arg] may print: a conflict message. *)
Definition is_conflict (e : @xo_event double) : bool :=
  match e with EvNameConflict _ | EvShortNameConflict _ => true | _ => false end.

(** [a'] is [a] after the parser: the same declaration, a value once set is
    still set, and array elements are only appended. *)
Definition arg_extends a a' : Prop :=
  name a' = name a /\ short_name a' = short_name a /\ value_tip a' = value_tip a
  /\ description a' = description a /\ flags a' = flags a
  /\ (has_value a = true -> has_value a' = true)
  /\ exists new, array_elems a' = (array_elems a ++ new)%list.


(** Exactly one of the nine type bits. *)
Definition one_type_b (T : Z) : bool :=
  existsb (Z.eqb T) [XO_ARGS_TYPE_STRING; XO_ARGS_TYPE_SWITCH; XO_ARGS_TYPE_BOOL;
        XO_ARGS_TYPE_INT; XO_ARGS_TYPE_DOUBLE; XO_ARGS_TYPE_STRING_ARRAY;
        XO_ARGS_TYPE_INT_ARRAY; XO_ARGS_TYPE_DOUBLE_ARRAY; XO_ARGS_TYPE_BOOL_ARRAY].

(** An argument as [xo_args_declare_arg] leaves it: one type bit, and a
    value of the shape its type asks for. *)
Definition wf_arg a : bool :=
  one_type_b (Z.land (flags a) all_types)
  && match value a with
     | Array _ => _xo_args_arg_flag_is_array (flags a)
     | Single _ => negb (_xo_args_arg_flag_is_array (flags a))
     end.

(** [l'] has the arguments of [l] at the same places, each one extended. *)
Definition args_extend (l l' : list (@xo_args_arg double)) : Prop :=
  (length l' = length l
  /\ forall j a, nth_error l j = Some a -> exists a', nth_error l' j = Some a' /\ arg_extends a a')%list.

(** Where the value of a scalar argument comes from, for the match [m] of
    the token [argv[i]]: the next token, or the text after ['=']. *)
Definition value_source ctx (i : nat) a (m : _xo_args_arg_match) (v : string) : Prop :=
  ((m = mk_match _XO_ARGS_ARG_MATCH_TYPE_NAME (name a)
    \/ exists sn, m = mk_match _XO_ARGS_ARG_MATCH_TYPE_SHORT_NAME sn)
   /\ nth_error (argv ctx) (S i) = Some v)
  \/ (m = mk_match _XO_ARGS_ARG_MATCH_TYPE_ASSIGN_NAME (name a)
      /\ nth_error (argv ctx) i = Some ("--" ++ name a ++ String "=" v))
  \/ (exists sn, m = mk_match _XO_ARGS_ARG_MATCH_TYPE_ASSIGN_SHORT_NAME sn
      /\ nth_error (argv ctx) i = Some ("-" ++ sn ++ String "=" v)).

End XoArgsMore.


(* ------------------------------------------------------------------------- *)
(** ** Concrete runs *)

(** A strtod for concrete runs.  None of the runs below declares a double
    argument, so it is never called; every theorem is proved for any strtod. *)
Definition no_strtod (s : string) : option unit := None.

(** A context for [argv] (app name ["prog"], no version) with the arguments
    [decls] declared in order. *)
Definition setup (argv0 : list string) (ver : option string)
    (decls : list (string * option string * Z)) : xo_args_ctx (double:=unit) :=
  fold_left (fun c '(n, sn, f) => snd (xo_args_declare_arg c n sn None None f))
    decls (mk_ctx argv0 "prog" ver None [] []).

Definition run (argv0 : list string) (decls : list (string * option string * Z))
  : bool * xo_args_ctx :=
  xo_args_submit no_strtod (setup argv0 None decls).

(** The argument declared [k]-th after a run. *)
Definition arg_of (r : bool * xo_args_ctx (double:=unit)) (k : nat) : option xo_args_arg :=
  deref (snd r) (Some k).

(** Declared arguments as [xo_args_declare_arg] builds them. *)
Definition foo_string_array : xo_args_arg (double:=unit) :=
  mk_arg "foo" None (Some "[text]") None XO_ARGS_TYPE_STRING_ARRAY false (Array []).
Definition foo_int_array : xo_args_arg (double:=unit) :=
  mk_arg "foo" None (Some "[integer]") None XO_ARGS_TYPE_INT_ARRAY false (Array []).
Definition verbose_switch : xo_args_arg (double:=unit) :=
  mk_arg "verbose" None None None XO_ARGS_TYPE_SWITCH false (Single None).
(** A string argument [name] that already holds ["A"]. *)
Definition name_given : xo_args_arg (double:=unit) :=
  mk_arg "name" None (Some "<text>") None XO_ARGS_TYPE_STRING true
    (Single (Some (XString "A"))).

Definition match_name (n : string) : _xo_args_arg_match :=
  mk_match _XO_ARGS_ARG_MATCH_TYPE_NAME n.

(** A required string argument. *)
Definition required_string : Z := Z.lor XO_ARGS_TYPE_STRING XO_ARGS_ARG_REQUIRED.

(** A string argument [--name], short [-n], and an int argument [--count],
    short [-c], as [xo_args_declare_arg] builds them. *)
Definition name_arg : xo_args_arg (double:=unit) :=
  mk_arg "name" (Some "n") (Some "<text>") None XO_ARGS_TYPE_STRING false (Single None).
Definition count_arg : xo_args_arg (double:=unit) :=
  mk_arg "count" (Some "c") (Some "<integer>") (Some "How many.") XO_ARGS_TYPE_INT false
    (Single None).

(** A command line giving [--name] a flag-like value and [-c] the smallest
    64-bit integer. *)
Definition values_ctx : xo_args_ctx (double:=unit) :=
  mk_ctx ["prog"; "--name"; "--count"; "-c=-9223372036854775808"] "prog" None None [] [].

(* ------------------------------------------------------------------------- *)
(** ** The declaration rules in the words of the specification *)

(** A valid name: not empty, and every character a letter, a digit or
    ['-']. *)
Definition spec_alnum_name (s : string) : bool :=
  negb (String.eqb s "") && forallb _xo_isalnum (list_ascii_of_string s).

(** The number of type flags set in [fl]. *)
Definition spec_type_count (fl : Z) : nat :=
  length (filter (has_flag fl)
    [XO_ARGS_TYPE_STRING; XO_ARGS_TYPE_SWITCH; XO_ARGS_TYPE_BOOL;
     XO_ARGS_TYPE_INT; XO_ARGS_TYPE_DOUBLE; XO_ARGS_TYPE_STRING_ARRAY;
     XO_ARGS_TYPE_BOOL_ARRAY; XO_ARGS_TYPE_INT_ARRAY; XO_ARGS_TYPE_DOUBLE_ARRAY]).

(** The last character of [s] (if any) is a letter, a digit or ['-']. *)
Fixpoint ends_alnum (s : string) : bool :=
  match s with
  | EmptyString => true
  | String c EmptyString => _xo_isalnum c
  | String _ r => ends_alnum r
  end.

(* ------------------------------------------------------------------------- *)
(** * Properties *)

(** ** Flags *)

Lemma land_type_bit (fl b : Z) :
  Z.land b all_types = b -> Z.land fl b = Z.land (Z.land fl all_types) b.
Proof.
  intros H. rewrite <- Z.land_assoc, (Z.land_comm all_types b), H. reflexivity.
Qed.

(** A type bit of [fl] is decided by the type part [Z.land fl all_types]. *)
Lemma has_flag_type (fl b : Z) :
  Z.land b all_types = b -> has_flag fl b = has_flag (Z.land fl all_types) b.
Proof. intros H. unfold has_flag. rewrite (land_type_bit fl b H). reflexivity. Qed.

Lemma is_array_type (fl : Z) :
  _xo_args_arg_flag_is_array fl = _xo_args_arg_flag_is_array (Z.land fl all_types).
Proof. apply has_flag_type. reflexivity. Qed.

(** Rewrites every type test on [fl] with [H : Z.land fl all_types = T]. *)
Ltac type_flags H :=
  repeat first
    [ rewrite (has_flag_type _ XO_ARGS_TYPE_STRING eq_refl), H
    | rewrite (has_flag_type _ XO_ARGS_TYPE_SWITCH eq_refl), H
    | rewrite (has_flag_type _ XO_ARGS_TYPE_BOOL eq_refl), H
    | rewrite (has_flag_type _ XO_ARGS_TYPE_INT eq_refl), H
    | rewrite (has_flag_type _ XO_ARGS_TYPE_DOUBLE eq_refl), H
    | rewrite (has_flag_type _ XO_ARGS_TYPE_STRING_ARRAY eq_refl), H
    | rewrite (has_flag_type _ XO_ARGS_TYPE_INT_ARRAY eq_refl), H
    | rewrite (has_flag_type _ XO_ARGS_TYPE_DOUBLE_ARRAY eq_refl), H
    | rewrite (has_flag_type _ XO_ARGS_TYPE_BOOL_ARRAY eq_refl), H
    | rewrite (is_array_type _), H ]; cbn [has_flag _xo_args_arg_flag_is_array].

(** The four array types. *)
Definition array_type (T : Z) : Prop :=
  T = XO_ARGS_TYPE_STRING_ARRAY \/ T = XO_ARGS_TYPE_INT_ARRAY
  \/ T = XO_ARGS_TYPE_DOUBLE_ARRAY \/ T = XO_ARGS_TYPE_BOOL_ARRAY.

(** The nine types: a declared argument has exactly one of them. *)
Definition one_type (T : Z) : Prop :=
  In T [XO_ARGS_TYPE_STRING; XO_ARGS_TYPE_SWITCH; XO_ARGS_TYPE_BOOL;
        XO_ARGS_TYPE_INT; XO_ARGS_TYPE_DOUBLE; XO_ARGS_TYPE_STRING_ARRAY;
        XO_ARGS_TYPE_INT_ARRAY; XO_ARGS_TYPE_DOUBLE_ARRAY; XO_ARGS_TYPE_BOOL_ARRAY].

(** ** Declaration checks *)

Lemma isalnum_str_spec (s : string) :
  ends_alnum s = true -> _xo_isalnum_str s = spec_alnum_name s.
Proof.
  induction s as [|c r IH]; intros H; [reflexivity|].
  destruct r as [|c' r'].
  - change (_xo_isalnum c = true) in H. unfold spec_alnum_name.
    cbn [list_ascii_of_string forallb]. rewrite H. reflexivity.
  - change (_xo_isalnum_str (String c (String c' r')))
      with (_xo_isalnum c && _xo_isalnum_str (String c' r')).
    rewrite IH by exact H. reflexivity.
Qed.

Lemma type_bits_small (t : nat) :
  t < 512 -> type_bits (Z.of_nat t) = spec_type_count (Z.of_nat t).
Proof.
  intros Ht.
  assert (Hall : forallb (fun n => Nat.eqb (type_bits (Z.of_nat n))
                                          (spec_type_count (Z.of_nat n)))
                   (seq 0 512) = true) by (vm_compute; reflexivity).
  rewrite forallb_forall in Hall.
  apply Nat.eqb_eq, Hall, in_seq. lia.
Qed.

(** The bit-counting loop counts the type flags. *)
Lemma type_bits_count (fl : Z) : type_bits fl = spec_type_count fl.
Proof.
  assert (Hm : Z.land fl all_types = (fl mod 2 ^ 9)%Z)
    by (change all_types with (Z.ones 9); apply Z.land_ones; lia).
  assert (Hb : (0 <= fl mod 2 ^ 9 < 2 ^ 9)%Z) by (apply Z.mod_pos_bound; lia).
  assert (Ht : type_bits fl = type_bits (Z.land fl all_types))
    by (unfold type_bits; now rewrite <- Z.land_assoc, Z.land_diag).
  assert (Hc : spec_type_count fl = spec_type_count (Z.land fl all_types)).
  { unfold spec_type_count. cbn [filter].
    now rewrite (has_flag_type fl XO_ARGS_TYPE_STRING eq_refl),
      (has_flag_type fl XO_ARGS_TYPE_SWITCH eq_refl),
      (has_flag_type fl XO_ARGS_TYPE_BOOL eq_refl),
      (has_flag_type fl XO_ARGS_TYPE_INT eq_refl),
      (has_flag_type fl XO_ARGS_TYPE_DOUBLE eq_refl),
      (has_flag_type fl XO_ARGS_TYPE_STRING_ARRAY eq_refl),
      (has_flag_type fl XO_ARGS_TYPE_BOOL_ARRAY eq_refl),
      (has_flag_type fl XO_ARGS_TYPE_INT_ARRAY eq_refl),
      (has_flag_type fl XO_ARGS_TYPE_DOUBLE_ARRAY eq_refl). }
  rewrite Ht, Hc, Hm.
  rewrite <- (Z2Nat.id (fl mod 2 ^ 9)%Z) by lia.
  apply type_bits_small. lia.
Qed.

Lemma len_eqb (x y : string) :
  (Nat.eqb (String.length x) (String.length y) && String.eqb y x) = String.eqb x y.
Proof.
  destruct (String.eqb_spec y x) as [->|Hne].
  - now rewrite Nat.eqb_refl, String.eqb_refl.
  - rewrite andb_false_r. symmetry. apply String.eqb_neq. congruence.
Qed.

Lemma exists_cons_skip {A} (P : A -> Prop) (e : A) (r : list A) :
  ~ P e -> (exists e0, In e0 (e :: r) /\ P e0) <-> (exists e0, In e0 r /\ P e0).
Proof.
  intros Hn. split.
  - intros (e0 & [<-|Hi] & Hp); [contradiction|eauto].
  - intros (e0 & Hi & Hp). exists e0. simpl. auto.
Qed.

(** [find_conflict] reports a conflict exactly when an existing argument has
    the same name, or the same short name. *)
Lemma find_conflict_some {D : Type} nm sn (l : list (@xo_args_arg D)) :
  is_some (find_conflict nm sn l) = true
  <-> exists e, In e l /\ (name e = nm \/ (sn <> None /\ short_name e = sn)).
Proof.
  induction l as [|e r IH].
  - simpl. split; [discriminate|]. now intros (e & [] & _).
  - cbn [find_conflict]. rewrite len_eqb.
    destruct (String.eqb_spec nm (name e)) as [Hn|Hn].
    + simpl. split; [intros _|reflexivity]. exists e. simpl. auto.
    + assert (Hskip : forall b : bool,
                 (b = true <-> exists e0, In e0 r /\ (name e0 = nm \/ (sn <> None /\ short_name e0 = sn))) ->
                 ~ (sn <> None /\ short_name e = sn) ->
                 b = true <-> exists e0, In e0 (e :: r) /\ (name e0 = nm \/ (sn <> None /\ short_name e0 = sn))).
      { intros b Hb Hs. rewrite exists_cons_skip; [exact Hb|]. intros [H|H]; [congruence|tauto]. }
      simpl.
      destruct sn as [s0|], (short_name e) as [es|] eqn:Hs.
      * rewrite len_eqb. destruct (String.eqb_spec s0 es) as [->|Hne].
        -- simpl. split; [intros _|reflexivity]. exists e. simpl. split; [auto|].
           right. split; [discriminate|exact Hs].
        -- apply Hskip; [exact IH|]. intros [_ H]. congruence.
      * apply Hskip; [exact IH|]. intros [_ H]. congruence.
      * apply Hskip; [exact IH|]. intros [H _]. congruence.
      * apply Hskip; [exact IH|]. intros [H _]. congruence.
Qed.

(** ** Strings *)

Lemma prefix_app (s t : string) : String.prefix s (s ++ t) = true.
Proof.
  induction s as [|c s IH]; simpl.
  - destruct t; reflexivity.
  - destruct (ascii_dec c c) as [_|n]; [exact IH|congruence].
Qed.

Lemma substring_0_length (s : string) : substring 0 (String.length s) s = s.
Proof. induction s as [|c s IH]; simpl; [reflexivity|now rewrite IH]. Qed.

Lemma drop_dashes (s : string) : drop 2 ("--" ++ s) = s.
Proof.
  unfold drop. simpl. rewrite Nat.sub_0_r. apply substring_0_length.
Qed.

Lemma get_app_r (n : nat) (s t : string) :
  String.get (String.length s + n) (s ++ t) = String.get n t.
Proof. induction s as [|c s IH]; simpl; auto. Qed.

Lemma length_app (s t : string) :
  String.length (s ++ t) = String.length s + String.length t.
Proof. induction s as [|c s IH]; simpl; auto. Qed.

(** ** The token matcher *)

(** A token that does not start with ['-'] matches no argument. *)
Lemma matches_no_dash {D : Type} (a : @xo_args_arg D) (t : string) :
  Ascii.eqb (char_at t 0) "-" = false -> _xo_args_arg_matches_input a t = None.
Proof.
  intros H. unfold _xo_args_arg_matches_input.
  destruct (Nat.eqb _ 0); [reflexivity|]. now rewrite H.
Qed.

Lemma any_matches_no_dash {D : Type} (all : list (@xo_args_arg D)) (t : string) :
  Ascii.eqb (char_at t 0) "-" = false -> any_arg_matches all t = false.
Proof.
  intros H. unfold any_arg_matches.
  induction all as [|a r IH]; simpl; [reflexivity|].
  now rewrite (matches_no_dash a t H), IH.
Qed.
Lemma append_empty (s : string) : s ++ "" = s.
Proof. induction s as [|c s IH]; simpl; [reflexivity|now rewrite IH]. Qed.

Lemma prefix_refl (s : string) : String.prefix s s = true.
Proof. rewrite <- (append_empty s) at 2. apply prefix_app. Qed.

Lemma drop_cons (c : ascii) (r : string) : drop 1 (String c r) = r.
Proof. unfold drop. simpl. rewrite Nat.sub_0_r. apply substring_0_length. Qed.

Section Matcher.
Context {double : Type}.
Implicit Types (a : @xo_args_arg double) (all : list (@xo_args_arg double)).

(** [--name] matches the argument called [name]. *)
Lemma matches_long_name a :
  name a <> "" ->
  _xo_args_arg_matches_input a ("--" ++ name a)
  = Some (mk_match _XO_ARGS_ARG_MATCH_TYPE_NAME (name a)).
Proof.
  intros Hn. unfold _xo_args_arg_matches_input.
  rewrite drop_dashes, prefix_refl.
  destruct (name a) as [|c r] eqn:E; [congruence|]. simpl.
  rewrite ?Nat.sub_0_r, ?Nat.eqb_refl. reflexivity.
Qed.

(** [--name=X] matches the argument called [name] in assignment form. *)
Lemma matches_long_assign a (x : string) :
  name a <> "" ->
  _xo_args_arg_matches_input a ("--" ++ name a ++ String "=" x)
  = Some (mk_match _XO_ARGS_ARG_MATCH_TYPE_ASSIGN_NAME (name a)).
Proof.
  intros Hn. unfold _xo_args_arg_matches_input.
  rewrite drop_dashes, prefix_app.
  destruct (name a) as [|c r] eqn:E; [congruence|]. simpl.
  rewrite length_app. simpl.
  replace (Nat.eqb (String.length r + S (String.length x)) (String.length r)) with false
    by (symmetry; apply Nat.eqb_neq; lia).
  unfold char_at.
  replace (S (String.length r + 2)) with (S (S (S (String.length r + 0)))) by lia.
  simpl String.get. rewrite get_app_r. reflexivity.
Qed.

Lemma any_matches_in all a t :
  In a all -> is_some (_xo_args_arg_matches_input a t) = true ->
  any_arg_matches all t = true.
Proof.
  intros Hin H. unfold any_arg_matches. apply existsb_exists. eauto.
Qed.

(** [-short], or [-short] followed by ['='] and more, matches the argument
    whose short name is [short], unless another ['-'] follows the first. *)
Lemma short_token a sn x :
  short_name a = Some sn -> Ascii.eqb (char_at (sn ++ x) 0) "-" = false ->
  _xo_args_arg_matches_input a (String "-" (sn ++ x))
  = if Nat.eqb (String.length x) 0
    then Some (mk_match _XO_ARGS_ARG_MATCH_TYPE_SHORT_NAME sn)
    else if Ascii.eqb (char_at x 0) "="
    then Some (mk_match _XO_ARGS_ARG_MATCH_TYPE_ASSIGN_SHORT_NAME sn)
    else None.
Proof.
  intros Hs Hc. unfold _xo_args_arg_matches_input.
  change (char_at (String "-" (sn ++ x)) 0) with "-"%char.
  change (char_at (String "-" (sn ++ x)) 1) with (char_at (sn ++ x) 0).
  rewrite Hc, andb_false_r, andb_false_l, Hs, drop_cons, prefix_app.
  cbn [String.length Nat.eqb]. rewrite length_app.
  change (Ascii.eqb "-" "-") with true. cbv iota.
  replace (S (String.length sn + String.length x) - 1) with (String.length sn + String.length x) by lia.
  destruct x as [|c x].
  - now rewrite Nat.add_0_r, Nat.eqb_refl.
  - cbn [String.length Nat.eqb].
    replace (Nat.eqb (String.length sn + S (String.length x)) (String.length sn)) with false
      by (symmetry; apply Nat.eqb_neq; lia).
    replace (String.length sn + 1) with (S (String.length sn + 0)) by lia.
    unfold char_at. cbn [String.get]. rewrite get_app_r. reflexivity.
Qed.

End Matcher.

(** ** The array slurp *)

Lemma nth_error_app_len {A} (l l' : list A) (n : nat) :
  nth_error (l ++ l') (length l + n) = nth_error l' n.
Proof. induction l as [|x l IH]; simpl; auto. Qed.

Lemma skipn_app_len {A} (l l' : list A) (n : nat) :
  skipn (length l + n) (l ++ l') = skipn n l'.
Proof. induction l as [|x l IH]; simpl; auto. Qed.

Lemma skipn_nth {A} (l : list A) (n : nat) (x : A) :
  nth_error l n = Some x -> skipn n l = x :: skipn (S n) l.
Proof.
  revert l. induction n as [|n IH]; intros [|y l] H; simpl in *; try discriminate.
  - now inversion H.
  - now apply IH.
Qed.

Section Parsing.
Local Open Scope list_scope.
Context {double : Type} (pd : string -> option double).
Implicit Types (a : @xo_args_arg double) (all : list (@xo_args_arg double))
  (ctx : @xo_args_ctx double).

(** [toks] are all taken by the slurp: none matches a declared argument and
    each satisfies the element grammar, giving [vs]. *)
Definition slurpable all (parse : string -> option (@xo_scalar double))
    (toks : list string) (vs : list (@xo_scalar double)) : Prop :=
  Forall2 (fun t v => any_arg_matches all t = false /\ parse t = Some v) toks vs.

Lemma slurp_all all parse err toks vs idx acc :
  slurpable all parse toks vs ->
  _xo_args_slurp all parse err toks (S idx) idx acc
  = (true, idx + length toks, (acc ++ vs)%list, []).
Proof.
  intros H. revert idx acc. induction H as [|t v ts1 vs1 [Hm Hp] _ IH]; intros idx acc; simpl.
  - now rewrite Nat.add_0_r, app_nil_r.
  - rewrite Hm, Hp, IH, <- app_assoc. f_equal. f_equal. f_equal. lia.
Qed.

Lemma slurp_stop all parse err toks vs t rest idx acc :
  slurpable all parse toks vs -> any_arg_matches all t = true ->
  _xo_args_slurp all parse err (toks ++ t :: rest) (S idx) idx acc
  = (true, idx + length toks, (acc ++ vs)%list, []).
Proof.
  intros H Ht. revert idx acc. induction H as [|t1 v ts1 vs1 [Hm Hp] _ IH]; intros idx acc; simpl.
  - now rewrite Ht, Nat.add_0_r, app_nil_r.
  - rewrite Hm, Hp, IH, <- app_assoc. f_equal. f_equal. f_equal. lia.
Qed.

Lemma slurp_fail all parse err toks vs t rest idx acc :
  slurpable all parse toks vs -> any_arg_matches all t = false -> parse t = None ->
  _xo_args_slurp all parse err (toks ++ t :: rest) (S idx) idx acc
  = (false, idx + length toks, (acc ++ vs)%list, [err]).
Proof.
  intros H Ht Hp0. revert idx acc. induction H as [|t1 v ts1 vs1 [Hm Hp] _ IH]; intros idx acc; simpl.
  - now rewrite Ht, Hp0, Nat.add_0_r, app_nil_r.
  - rewrite Hm, Hp, IH, <- app_assoc. f_equal. f_equal. f_equal. lia.
Qed.

(** Whatever happens, the slurp only appends, and what it appends are the
    parses of the tokens it consumed, in order. *)
Lemma slurp_consumed all parse err toks idx acc ok i' acc' evs :
  _xo_args_slurp all parse err toks (S idx) idx acc = (ok, i', acc', evs) ->
  idx <= i' /\ (evs = [] \/ evs = [err]) /\
  exists new, acc' = (acc ++ new)%list
    /\ Forall2 (fun t v => parse t = Some v) (firstn (i' - idx) toks) new.
Proof.
  revert idx acc. induction toks as [|t r IH]; intros idx acc H; simpl in H.
  - inversion H; subst. split; [lia|]. split; [auto|].
    exists []. rewrite app_nil_r, Nat.sub_diag. split; [reflexivity|constructor].
  - destruct (any_arg_matches all t).
    + inversion H; subst. split; [lia|]. split; [auto|].
      exists []. rewrite app_nil_r, Nat.sub_diag. split; [reflexivity|constructor].
    + destruct (parse t) as [v|] eqn:Hp.
      * destruct (IH (S idx) (acc ++ [v]) H) as (Hle & Hev & new & -> & Hf).
        split; [lia|]. split; [exact Hev|].
        exists (v :: new). split; [now rewrite <- app_assoc|].
        replace (i' - idx) with (S (i' - S idx)) by lia. simpl. now constructor.
      * inversion H; subst. split; [lia|]. split; [auto|].
        exists []. rewrite app_nil_r, Nat.sub_diag. split; [reflexivity|constructor].
Qed.

(** The slurp reports [err] only together with [false]. *)
Lemma slurp_true_silent all parse err toks k idx acc i' acc' evs :
  _xo_args_slurp all parse err toks k idx acc = (true, i', acc', evs) -> evs = [].
Proof.
  revert k idx acc. induction toks as [|t r IH]; intros k idx acc H; simpl in H.
  - now inversion H.
  - destruct (any_arg_matches all t); [now inversion H|].
    destruct (parse t); [eapply IH; exact H|discriminate].
Qed.

(** An array branch either leaves the argument untouched (no value after
    the flag, or the first value fails its grammar) or appends to it the
    parses of the tokens [argv[i+1..i']] it consumed, at least one. *)
Lemma parse_array_shape ctx i a parse err ok i' a' evs :
  parse_array ctx i a parse err = (ok, i', a', evs) ->
  (ok = false /\ i' = i /\ a' = a
   /\ (evs = [EvNoValue (nth i (argv ctx) "")] \/ evs = [err]))
  \/ (i < i' /\ (evs = [] \/ (ok = false /\ evs = [err])) /\
      exists new, new <> [] /\ a' = set_value a true (Array (array_elems a ++ new)%list)
        /\ Forall2 (fun t v => parse t = Some v)
             (firstn (i' - i) (skipn (S i) (argv ctx))) new).
Proof.
  unfold parse_array. intros H.
  destruct (nth_error (argv ctx) (S i)) as [t0|] eqn:Ht0.
  2:{ inversion H; subst. left. auto. }
  destruct (parse t0) as [v0|] eqn:Hp0.
  2:{ inversion H; subst. left. auto. }
  destruct (_xo_args_slurp (args ctx) parse err (skipn (S (S i)) (argv ctx))
              (S (S i)) (S i) (array_elems a ++ [v0])) as [[[ok2 i2] el] ev2] eqn:Hs.
  inversion H; subst. right.
  destruct (slurp_consumed _ _ _ _ _ _ _ _ _ _ Hs) as (Hle & Hev & new & -> & Hf).
  split; [lia|]. split.
  { destruct Hev as [->| ->]; [now left|]. destruct ok; [|now right].
    apply slurp_true_silent in Hs. discriminate. }
  exists (v0 :: new). split; [discriminate|]. split; [now rewrite <- app_assoc|].
  replace (i' - i) with (S (i' - S i)) by lia.
  rewrite (skipn_nth _ _ _ Ht0). simpl. now constructor.
Qed.

(** An array branch that takes [t0] and then every token of [toks], stopping
    at a declared flag or at the end of argv. *)
Lemma parse_array_run ctx i a parse err t0 v0 toks vs rest :
  nth_error (argv ctx) (S i) = Some t0 -> parse t0 = Some v0 ->
  skipn (S (S i)) (argv ctx) = toks ++ rest ->
  slurpable (args ctx) parse toks vs ->
  (rest = [] \/ exists t r, rest = t :: r /\ any_arg_matches (args ctx) t = true) ->
  parse_array ctx i a parse err
  = (true, S i + length toks, set_value a true (Array (array_elems a ++ v0 :: vs)), []).
Proof.
  intros H0 Hp Hs Hsl Hr. unfold parse_array. rewrite H0, Hp, Hs.
  destruct Hr as [->|(t & r & -> & Ht)].
  - rewrite app_nil_r, (slurp_all _ _ _ _ _ _ _ Hsl), <- app_assoc. reflexivity.
  - rewrite (slurp_stop _ _ _ _ _ _ _ _ _ Hsl Ht), <- app_assoc. reflexivity.
Qed.

(** ** Dispatch of [_xo_args_try_parse_arg] *)

(** The duplicate check comes first: a non-array argument that already has
    a value is refused whatever the match and the rest of argv. *)
Lemma try_parse_arg_dup ctx i a m :
  has_value a = true -> _xo_args_arg_flag_is_array (flags a) = false ->
  _xo_args_try_parse_arg pd ctx i a m
  = (false, i, a, [EvMultiple (nth i (argv ctx) "")]).
Proof. intros H1 H2. unfold _xo_args_try_parse_arg. now rewrite H1, H2. Qed.

(** An array argument goes to its array branch whatever its [has_value]
    and whatever the form of the match. *)
Lemma try_parse_arg_array ctx i a m T :
  Z.land (flags a) all_types = T -> array_type T ->
  _xo_args_try_parse_arg pd ctx i a m
  = parse_array ctx i a (array_elem_parser pd T) (array_err T (nth i (argv ctx) "")).
Proof.
  intros H HT. unfold _xo_args_try_parse_arg.
  destruct HT as [ -> | [ -> | [ -> | -> ] ] ]; type_flags H; rewrite andb_false_r; reflexivity.
Qed.

(** A switch consumes no token: the index is left where it was. *)
Lemma try_parse_arg_switch ctx i a m :
  Z.land (flags a) all_types = XO_ARGS_TYPE_SWITCH -> has_value a = false ->
  _xo_args_try_parse_arg pd ctx i a m = (true, i, set_value a true (value a), []).
Proof.
  intros H Hv. unfold _xo_args_try_parse_arg. rewrite Hv. simpl. type_flags H. reflexivity.
Qed.

End Parsing.

(** ** One turn of the scanning loop *)

Section Scan.
Context {double : Type} (pd : string -> option double).
Implicit Types (a : @xo_args_arg double) (all : list (@xo_args_arg double))
  (ctx : @xo_args_ctx double).

Lemma find_arg_from_spec all tok j0 j a m :
  find_arg_from j0 all tok = Some (j, a, m) ->
  j0 <= j /\ nth_error all (j - j0) = Some a
  /\ _xo_args_arg_matches_input a tok = Some m.
Proof.
  revert j0. induction all as [|b r IH]; intros j0 H; simpl in H; [discriminate|].
  destruct (_xo_args_arg_matches_input b tok) eqn:E.
  - inversion H; subst. rewrite Nat.sub_diag. auto.
  - destruct (IH (S j0) H) as (Hle & Hn & Hm). split; [lia|]. split; [|exact Hm].
    replace (j - j0) with (S (j - S j0)) by lia. exact Hn.
Qed.

(** A matched token starts with ['-']. *)
Lemma matches_dash a tok m :
  _xo_args_arg_matches_input a tok = Some m -> Ascii.eqb (char_at tok 0) "-" = true.
Proof.
  unfold _xo_args_arg_matches_input. intros H.
  destruct (Nat.eqb _ 0); [discriminate|].
  destruct (Ascii.eqb (char_at tok 0) "-"); [reflexivity|discriminate].
Qed.

(** The scan at a flag token: the first matching argument is parsed, the
    argument is stored back, and the loop goes on after the last consumed
    token or stops with the try-help hint. *)
Lemma scan_step f ctx i tok j a m :
  nth_error (argv ctx) i = Some tok -> 1 < String.length tok ->
  find_arg_from 0 (args ctx) tok = Some (j, a, m) ->
  submit_scan pd (S f) ctx i =
    let '(ok, i', a', evs) := _xo_args_try_parse_arg pd ctx i a m in
    let ctx' := print (set_args ctx (list_set j a' (args ctx))) evs in
    if ok then submit_scan pd f ctx' (S i')
    else (false, print ctx' [EvTryHelp (app_name ctx)]).
Proof.
  intros Hi Hl Hf. simpl. rewrite Hi.
  destruct (find_arg_from_spec _ _ _ _ _ _ Hf) as (_ & _ & Hm).
  rewrite (matches_dash _ _ _ Hm).
  replace (Nat.eqb (String.length tok) 0) with false by (symmetry; apply Nat.eqb_neq; lia).
  replace (Nat.eqb (String.length tok) 1) with false by (symmetry; apply Nat.eqb_neq; lia).
  simpl. rewrite Hf. reflexivity.
Qed.

Lemma list_set_same {A} (l : list A) (j : nat) (x : A) :
  nth_error l j = Some x -> list_set j x l = l.
Proof.
  revert l. induction j as [|j IH]; intros [|y l] H; simpl in *; try discriminate.
  - now inversion H.
  - now rewrite IH.
Qed.

Lemma list_set_nth {A} (l : list A) (j : nat) (x y : A) :
  nth_error l j = Some y -> nth_error (list_set j x l) j = Some x.
Proof.
  revert l. induction j as [|j IH]; intros [|z l] H; simpl in *; try discriminate; auto.
Qed.

Lemma list_set_other {A} (l : list A) (j k : nat) (x : A) :
  j <> k -> nth_error (list_set j x l) k = nth_error l k.
Proof.
  revert l k. induction j as [|j IH]; intros [|z l] [|k] H; simpl; auto; try lia.
Qed.

Lemma matches_set_value a hv v t :
  _xo_args_arg_matches_input (set_value a hv v) t = _xo_args_arg_matches_input a t.
Proof. reflexivity. Qed.

Lemma scan_end f ctx i :
  nth_error (argv ctx) i = None -> submit_scan pd (S f) ctx i = (true, ctx).
Proof. intros H. simpl. now rewrite H. Qed.

Lemma submit_checks_args ctx h v :
  args (snd (submit_checks ctx h v)) = args ctx.
Proof.
  unfold submit_checks.
  destruct (match xo_args_try_get_bool (deref ctx h) with Some true => true | _ => false end);
    [reflexivity|].
  destruct (_ && _); [reflexivity|].
  destruct (first_missing_required (args ctx)); reflexivity.
Qed.

(** Declaring keeps argv and the application data and only appends. *)
Lemma declare_shape ctx nm sn vt d fl h ctx' :
  xo_args_declare_arg ctx nm sn vt d fl = (h, ctx') ->
  argv ctx' = argv ctx /\ app_name ctx' = app_name ctx
  /\ app_version ctx' = app_version ctx
  /\ exists extra, args ctx' = (args ctx ++ extra)%list.
Proof.
  unfold xo_args_declare_arg. intros H.
  repeat match type of H with
  | context [if ?c then _ else _] => destruct c
  | context [match find_conflict ?x ?y ?z with _ => _ end] => destruct (find_conflict x y z)
  end; inversion H; subst; simpl; repeat split; eauto;
  exists []; now rewrite app_nil_r.
Qed.

Lemma declare_implicit_shape ctx h v ctx' :
  declare_implicit ctx = (h, v, ctx') ->
  argv ctx' = argv ctx /\ app_name ctx' = app_name ctx
  /\ app_version ctx' = app_version ctx
  /\ exists extra, args ctx' = (args ctx ++ extra)%list.
Proof.
  unfold declare_implicit. intros H.
  destruct (xo_args_declare_arg ctx _ _ _ _ _) as [h1 c1] eqn:E1.
  destruct (declare_shape _ _ _ _ _ _ _ _ E1) as (A1 & B1 & C1 & e1 & D1).
  destruct (app_version c1) eqn:Ev.
  - destruct (xo_args_declare_arg c1 _ _ _ _ _) as [h2 c2] eqn:E2.
    destruct (declare_shape _ _ _ _ _ _ _ _ E2) as (A2 & B2 & C2 & e2 & D2).
    inversion H; subst. rewrite A2, B2, C2, D2, D1, <- app_assoc.
    repeat split; try congruence. now exists (e1 ++ e2)%list.
  - inversion H; subst. repeat split; try congruence. now exists e1.
Qed.

Lemma set_args_same ctx : set_args ctx (args ctx) = ctx.
Proof. now destruct ctx. Qed.

(** The scan at an array flag whose values run up to the next declared flag
    or the end of argv: all of them are appended and the scan goes on at the
    token after the last one. *)
Lemma scan_array_flag f ctx i tok j a m T t0 v0 toks vs rest :
  nth_error (argv ctx) i = Some tok -> 1 < String.length tok ->
  find_arg_from 0 (args ctx) tok = Some (j, a, m) ->
  Z.land (flags a) all_types = T -> array_type T ->
  nth_error (argv ctx) (S i) = Some t0 -> array_elem_parser pd T t0 = Some v0 ->
  skipn (S (S i)) (argv ctx) = (toks ++ rest)%list ->
  slurpable (args ctx) (array_elem_parser pd T) toks vs ->
  (rest = [] \/ exists t r, rest = t :: r /\ any_arg_matches (args ctx) t = true) ->
  submit_scan pd (S f) ctx i
  = submit_scan pd f
      (print (set_args ctx
         (list_set j (set_value a true (Array (array_elems a ++ v0 :: vs)%list)) (args ctx))) [])
      (S (S i + length toks)).
Proof.
  intros Hi Hl Hf HT HA H0 Hp0 Hs Hsl Hr.
  rewrite (scan_step f ctx i tok j a m Hi Hl Hf), (try_parse_arg_array pd ctx i a m T HT HA).
  rewrite (parse_array_run ctx i a _ _ t0 v0 toks vs rest H0 Hp0 Hs Hsl Hr).
  reflexivity.
Qed.

Lemma scan_end_any f ctx i :
  nth_error (argv ctx) i = None -> submit_scan pd f ctx i = (true, ctx).
Proof. intros H. destruct f; simpl; [reflexivity|now rewrite H]. Qed.

(** What [_xo_args_try_parse_arg] returns is the argument unchanged or the
    argument with a value set. *)
Lemma try_parse_arg_result ctx i a m ok i' a' evs :
  _xo_args_try_parse_arg pd ctx i a m = (ok, i', a', evs) ->
  a' = a \/ exists v, a' = set_value a true v.
Proof.
  unfold _xo_args_try_parse_arg, parse_single, parse_array. intros H.
  repeat match type of H with
  | context [if ?c then _ else _] => destruct c
  | context [match ?x with _ => _ end] => destruct x
  end; inversion H; subst; eauto.
Qed.

(** The scan never touches an argument that no token of argv matches. *)
Lemma scan_frame f ctx i j a ok ctx' :
  nth_error (args ctx) j = Some a ->
  (forall t, In t (argv ctx) -> _xo_args_arg_matches_input a t = None) ->
  submit_scan pd f ctx i = (ok, ctx') ->
  nth_error (args ctx') j = Some a.
Proof.
  revert ctx i. induction f as [|f IH]; intros ctx i Hj Hno H; simpl in H.
  - inversion H; subst; assumption.
  - destruct (nth_error (argv ctx) i) as [tok|] eqn:Hi; [|inversion H; subst; assumption].
    destruct (Nat.eqb (String.length tok) 0); [exact (IH _ _ Hj Hno H)|].
    destruct (_ || _); [inversion H; subst; assumption|].
    destruct (find_arg_from 0 (args ctx) tok) as [[[k b] m]|] eqn:Hf; [|inversion H; subst; assumption].
    destruct (find_arg_from_spec _ _ _ _ _ _ Hf) as (_ & Hk & Hm).
    rewrite Nat.sub_0_r in Hk.
    assert (Hkj : k <> j).
    { intros ->. rewrite Hj in Hk. inversion Hk; subst.
      rewrite (Hno tok (nth_error_In _ _ Hi)) in Hm. discriminate. }
    destruct (_xo_args_try_parse_arg pd ctx i b m) as [[[ok' i'] b'] evs].
    assert (Hj' : nth_error (list_set k b' (args ctx)) j = Some a)
      by now rewrite list_set_other.
    destruct ok'; [exact (IH (print (set_args ctx (list_set k b' (args ctx))) evs) _ Hj' Hno H)|]. inversion H; subst; assumption.
Qed.

(** Once an argument has a value, the scan keeps it there, with the same
    name, short name and flags. *)
Lemma scan_keeps_value f ctx i j b ok ctx' :
  nth_error (args ctx) j = Some b -> has_value b = true ->
  submit_scan pd f ctx i = (ok, ctx') ->
  exists b', nth_error (args ctx') j = Some b' /\ has_value b' = true
    /\ flags b' = flags b /\ name b' = name b /\ short_name b' = short_name b.
Proof.
  revert ctx i b. induction f as [|f IH]; intros ctx i b Hj Hv H; simpl in H.
  - inversion H; subst. eauto 10.
  - destruct (nth_error (argv ctx) i) as [tok|] eqn:Hi; [|inversion H; subst; eauto 10].
    destruct (Nat.eqb (String.length tok) 0); [exact (IH _ _ _ Hj Hv H)|].
    destruct (_ || _); [inversion H; subst; eauto 10|].
    destruct (find_arg_from 0 (args ctx) tok) as [[[k a] m]|] eqn:Hf;
      [|inversion H; subst; eauto 10].
    destruct (find_arg_from_spec _ _ _ _ _ _ Hf) as (_ & Hk & _).
    rewrite Nat.sub_0_r in Hk.
    destruct (_xo_args_try_parse_arg pd ctx i a m) as [[[ok' i'] a'] evs] eqn:Hp.
    assert (Hj' : exists b1, nth_error (list_set k a' (args ctx)) j = Some b1
              /\ has_value b1 = true /\ flags b1 = flags b /\ name b1 = name b
              /\ short_name b1 = short_name b).
    { destruct (Nat.eq_dec k j) as [->|Hkj].
      - rewrite Hj in Hk. inversion Hk; subst. exists a'.
        split; [exact (list_set_nth _ _ _ _ Hj)|].
        destruct (try_parse_arg_result _ _ _ _ _ _ _ _ Hp) as [->|[v ->]]; auto.
      - exists b. rewrite list_set_other by exact Hkj. auto. }
    destruct Hj' as (b1 & Hb1 & Hv1 & Hf1 & Hn1 & Hs1).
    destruct ok'.
    + destruct (IH (print (set_args ctx (list_set k a' (args ctx))) evs) _ b1 Hb1 Hv1 H)
        as (b2 & ? & ? & ? & ? & ?).
      exists b2. repeat split; congruence.
    + inversion H; subst. exists b1. auto.
Qed.

Lemma submit_scanned ctx :
  xo_args_submit pd ctx
  = if fst (scanned pd ctx)
    then submit_checks (snd (scanned pd ctx)) (fst (implicit_handles ctx))
           (snd (implicit_handles ctx))
    else (false, snd (scanned pd ctx)).
Proof.
  unfold xo_args_submit, scanned, implicit_handles.
  destruct (declare_implicit ctx) as [[h v] c2].
  destruct (submit_scan pd (argc c2) c2 1) as [ok c3]. reflexivity.
Qed.

Lemma help_no_diagnostic ctx :
  forallb (fun e => negb (is_diagnostic e)) (xo_args_print_help ctx) = true.
Proof.
  unfold xo_args_print_help. rewrite !forallb_app. simpl.
  assert (Hm : forall l : list (@xo_args_arg double),
             forallb (fun e : @xo_event double => negb (is_diagnostic e))
               (map (fun a => EvText (" --" ++ name a)) l) = true)
    by (induction l as [|x l IH]; [reflexivity|exact IH]).
  rewrite Hm. destruct (existsb _ _), (app_documentation ctx); reflexivity.
Qed.

Lemma print_argv ctx evs : argv (print ctx evs) = argv ctx.
Proof. reflexivity. Qed.

(** [_xo_args_try_parse_arg] never moves the index back. *)
Lemma try_parse_arg_index ctx i a m ok i' a' evs :
  _xo_args_try_parse_arg pd ctx i a m = (ok, i', a', evs) -> i <= i'.
Proof.
  intros H. unfold _xo_args_try_parse_arg in H.
  repeat match type of H with context [if ?c then _ else _] => destruct c end;
    try (inversion H; subst; lia);
    try (apply parse_array_shape in H; destruct H as [(_ & -> & _)|(? & _)]; lia);
    unfold parse_single in H;
    repeat match type of H with
    | context [if ?c then _ else _] => destruct c
    | context [match ?x with _ => _ end] => destruct x
    end; inversion H; subst; lia.
Qed.

(** The scan from index [i] never touches an argument that no token from
    [argv[i]] on matches. *)
Lemma scan_frame_from f ctx i j a ok ctx' :
  nth_error (args ctx) j = Some a ->
  (forall n t, i <= n -> nth_error (argv ctx) n = Some t -> _xo_args_arg_matches_input a t = None) ->
  submit_scan pd f ctx i = (ok, ctx') ->
  nth_error (args ctx') j = Some a.
Proof.
  revert ctx i. induction f as [|f IH]; intros ctx i Hj Hno H; simpl in H.
  - inversion H; subst; assumption.
  - destruct (nth_error (argv ctx) i) as [tok|] eqn:Hi; [|inversion H; subst; assumption].
    destruct (Nat.eqb (String.length tok) 0).
    { apply (IH _ (S i) Hj); [|exact H]. intros n t Hn. apply Hno. lia. }
    destruct (_ || _); [inversion H; subst; assumption|].
    destruct (find_arg_from 0 (args ctx) tok) as [[[k b] m]|] eqn:Hf; [|inversion H; subst; assumption].
    destruct (find_arg_from_spec _ _ _ _ _ _ Hf) as (_ & Hk & Hm).
    rewrite Nat.sub_0_r in Hk.
    assert (Hkj : k <> j).
    { intros ->. rewrite Hj in Hk. inversion Hk; subst.
      rewrite (Hno i tok (le_n _) Hi) in Hm. discriminate. }
    destruct (_xo_args_try_parse_arg pd ctx i b m) as [[[ok' i'] b'] evs] eqn:Hp.
    pose proof (try_parse_arg_index _ _ _ _ _ _ _ _ Hp) as Hii.
    assert (Hj' : nth_error (list_set k b' (args ctx)) j = Some a)
      by now rewrite list_set_other.
    destruct ok'; [|inversion H; subst; assumption].
    apply (IH (print (set_args ctx (list_set k b' (args ctx))) evs) (S i') Hj'); [|exact H]. intros n t Hn. apply Hno. lia.
Qed.

End Scan.

(** C8: the integer grammar. ["57005"], ["0x0000DEAD"], ["0157255"] and
    ["+57005"] parse to 57005, their negations to -57005;
    ["9223372036854775808"] (one past [INT64_MAX]) fails, and so do [""],
    [" "], ["1.0"] and ["0xabcdefg"]. *)
Theorem int_grammar_examples :
  map _xo_args_try_parse_int ["57005"; "0x0000DEAD"; "0157255"; "+57005"]
    = repeat (Some 57005%Z) 4
  /\ map _xo_args_try_parse_int ["-57005"; "-0x0000DEAD"; "-0157255"]
    = repeat (Some (-57005)%Z) 3
  /\ _xo_args_try_parse_int "9223372036854775808" = None
  /\ map _xo_args_try_parse_int [""; " "; "1.0"; "0xabcdefg"] = repeat None 4.
Proof. vm_compute. repeat split. Qed.

Section Claims.
Local Open Scope list_scope.
Context {double : Type} (pd : string -> option double).
Implicit Types (a b : @xo_args_arg double) (ctx c : @xo_args_ctx double).

(** Tokens that do not start with ['-'] and parse as integers [vs]. *)
Definition int_tokens (ts : list string) (vs : list Z) : Prop :=
  Forall2 (fun t v => Ascii.eqb (char_at t 0) "-" = false
                      /\ _xo_args_try_parse_int t = Some v) ts vs.

Lemma elem_parser_int :
  array_elem_parser pd XO_ARGS_TYPE_INT_ARRAY = @parse_int_scalar double.
Proof. reflexivity. Qed.

Lemma int_tokens_slurpable all ts vs :
  int_tokens ts vs ->
  slurpable all (array_elem_parser pd XO_ARGS_TYPE_INT_ARRAY) ts (map XInt vs).
Proof.
  rewrite elem_parser_int.
  induction 1 as [|t v ts1 vs1 [Hd Hp] _ IH]; simpl; constructor; auto.
  split; [now apply any_matches_no_dash|]. unfold parse_int_scalar. now rewrite Hp.
Qed.

Lemma int_tokens_app ts1 vs1 ts2 vs2 :
  int_tokens ts1 vs1 -> int_tokens ts2 vs2 -> int_tokens (ts1 ++ ts2) (vs1 ++ vs2).
Proof. apply Forall2_app. Qed.

Lemma find_first_long (b : @xo_args_arg double) rest :
  name b <> "" ->
  find_arg_from 0 (b :: rest) ("--" ++ name b)%string
  = Some (0, b, mk_match _XO_ARGS_ARG_MATCH_TYPE_NAME (name b)).
Proof. intros Hn. cbn [find_arg_from]. now rewrite (matches_long_name b Hn). Qed.

Lemma map_scalar_int (vs : list Z) : map scalar_int (map (@XInt double) vs) = vs.
Proof. induction vs as [|v vs IH]; simpl; congruence. Qed.

(** The int array read back from an argument that was given the values [vs]. *)
Lemma get_int_array_after a vs :
  Z.land (flags a) all_types = XO_ARGS_TYPE_INT_ARRAY ->
  xo_args_try_get_int_array (Some (set_value a true (Array (map XInt vs)))) = Some vs.
Proof.
  intros HT. unfold xo_args_try_get_int_array. simpl. type_flags HT.
  unfold array_elems. simpl. now rewrite map_scalar_int.
Qed.

Lemma find_arg_from_skip (before rest : list (@xo_args_arg double)) j tok :
  any_arg_matches before tok = false ->
  find_arg_from j (before ++ rest) tok = find_arg_from (j + length before) rest tok.
Proof.
  revert j. induction before as [|b r IH]; intros j H; simpl.
  - now rewrite Nat.add_0_r.
  - unfold any_arg_matches in H. simpl in H.
    destruct (_xo_args_arg_matches_input b tok); [discriminate|].
    rewrite IH by exact H. f_equal. lia.
Qed.

Lemma find_long_after (before : list (@xo_args_arg double)) b rest :
  name b <> "" -> any_arg_matches before ("--" ++ name b)%string = false ->
  find_arg_from 0 (before ++ b :: rest) ("--" ++ name b)%string
  = Some (length before, b, mk_match _XO_ARGS_ARG_MATCH_TYPE_NAME (name b)).
Proof.
  intros Hn Hb. rewrite find_arg_from_skip by exact Hb. cbn [find_arg_from].
  now rewrite (matches_long_name b Hn).
Qed.

Lemma list_set_mid {A} (l r : list A) (x y : A) :
  list_set (length l) y (l ++ x :: r) = l ++ y :: r.
Proof. induction l as [|z l IH]; simpl; [reflexivity|now rewrite IH]. Qed.

Lemma nth_error_mid {A} (l r : list A) (x : A) :
  nth_error (l ++ x :: r) (length l) = Some x.
Proof. induction l as [|z l IH]; simpl; auto. Qed.

(** C9: an array argument matched in assignment form, [--foo=X] or
    [-f=X], still matches, but the text after ['='] is never stored: the
    array branch does the same whatever the form of the match, the elements
    it adds are the parses of the tokens that follow the flag token, and with
    no following token the scan fails with "No value provided" and the
    try-help hint. *)
Theorem array_assignment_value_ignored ctx f i j a t x m T :
  Z.land (flags a) all_types = T -> array_type T ->
  ((name a <> "" /\ t = ("--" ++ name a ++ String "=" x)%string
      /\ m = mk_match _XO_ARGS_ARG_MATCH_TYPE_ASSIGN_NAME (name a))
   \/ (exists sn, short_name a = Some sn /\ Ascii.eqb (char_at sn 0) "-" = false
      /\ t = ("-" ++ sn ++ String "=" x)%string
      /\ m = mk_match _XO_ARGS_ARG_MATCH_TYPE_ASSIGN_SHORT_NAME sn)) ->
  nth_error (argv ctx) i = Some t ->
  _xo_args_arg_matches_input a t = Some m
  /\ (forall m1 m2, _xo_args_try_parse_arg pd ctx i a m1 = _xo_args_try_parse_arg pd ctx i a m2)
  /\ (forall m' ok i' a' evs, _xo_args_try_parse_arg pd ctx i a m' = (ok, i', a', evs) ->
        exists new, array_elems a' = array_elems a ++ new
          /\ Forall2 (fun t v => array_elem_parser pd T t = Some v)
               (firstn (i' - i) (skipn (S i) (argv ctx))) new)
  /\ (nth_error (argv ctx) (S i) = None ->
      find_arg_from 0 (args ctx) t = Some (j, a, m) ->
      submit_scan pd (S f) ctx i
      = (false, print (print ctx [EvNoValue t]) [EvTryHelp (app_name ctx)])).
Proof.
  intros HT HA Hform Hi.
  assert (Hl : 1 < String.length t).
  { destruct Hform as [(_ & -> & _)|(sn & _ & _ & -> & _)]; simpl;
      rewrite ?length_app; simpl; lia. }
  split; [|split; [|split]].
  - destruct Hform as [(Hn & -> & ->)|(sn & Hs & Hc & -> & ->)].
    + now apply matches_long_assign.
    + change ("-" ++ sn ++ String "=" x)%string with (String "-" (sn ++ String "=" x)).
      rewrite short_token with (sn := sn); [reflexivity|exact Hs|].
      destruct sn as [|c r]; [reflexivity|exact Hc].
  - intros m1 m2. now rewrite !(try_parse_arg_array pd ctx i a _ T HT HA).
  - intros m' ok i' a' evs H. rewrite (try_parse_arg_array pd ctx i a _ T HT HA) in H.
    destruct (parse_array_shape _ _ _ _ _ _ _ _ _ H)
      as [(_ & -> & -> & _) | (_ & _ & new & _ & -> & Hf)].
    + exists []. rewrite app_nil_r, Nat.sub_diag. split; [reflexivity|constructor].
    + exists new. split; [reflexivity|exact Hf].
  - intros Hnone Hf.
    rewrite (scan_step pd f ctx i _ j a _ Hi Hl Hf).
    rewrite (try_parse_arg_array pd ctx i a _ T HT HA).
    unfold parse_array. rewrite Hnone.
    rewrite (nth_error_nth _ _ _ Hi).
    destruct (find_arg_from_spec _ _ _ _ _ _ Hf) as (_ & Hj & _).
    rewrite Nat.sub_0_r in Hj. rewrite (list_set_same _ _ _ Hj), set_args_same.
    reflexivity.
Qed.

(** C10: a grammar error in the middle of an array slurp stops the scan
    with [false], but the argument keeps the elements read before the bad
    token: it is stored with [has_value] set and the elements [v0 :: vs]
    appended; nothing written before the error is undone. *)
Theorem array_error_keeps_prefix f ctx i tok j a m T t0 v0 toks vs t rest :
  nth_error (argv ctx) i = Some tok -> 1 < String.length tok ->
  find_arg_from 0 (args ctx) tok = Some (j, a, m) ->
  Z.land (flags a) all_types = T -> array_type T ->
  nth_error (argv ctx) (S i) = Some t0 -> array_elem_parser pd T t0 = Some v0 ->
  skipn (S (S i)) (argv ctx) = toks ++ t :: rest ->
  slurpable (args ctx) (array_elem_parser pd T) toks vs ->
  any_arg_matches (args ctx) t = false -> array_elem_parser pd T t = None ->
  let a' := set_value a true (Array (array_elems a ++ v0 :: vs)) in
  let ctx' := print (print (set_args ctx (list_set j a' (args ctx))) [array_err T tok])
                [EvTryHelp (app_name ctx)] in
  submit_scan pd (S f) ctx i = (false, ctx')
  /\ nth_error (args ctx') j = Some a' /\ has_value a' = true
  /\ (forall k, k <> j -> nth_error (args ctx') k = nth_error (args ctx) k).
Proof.
  intros Hi Hl Hf HT HA H0 Hp0 Hs Hsl Ht Hpt a' ctx'.
  destruct (find_arg_from_spec _ _ _ _ _ _ Hf) as (_ & Hj & _).
  rewrite Nat.sub_0_r in Hj.
  split; [|split; [|split]].
  - rewrite (scan_step pd f ctx i tok j a m Hi Hl Hf), (try_parse_arg_array pd ctx i a m T HT HA).
    unfold parse_array. rewrite H0, Hp0, Hs, (slurp_fail _ _ _ _ _ _ _ _ _ Hsl Ht Hpt).
    rewrite (nth_error_nth _ _ _ Hi), <- app_assoc. reflexivity.
  - exact (list_set_nth _ _ _ _ Hj).
  - reflexivity.
  - intros k Hk. apply list_set_other. lia.
Qed.

(** C3 (amended): when the scan reaches, as a flag, a token whose first
    match is a non-array argument that already has a value, submit fails
    with the "provided multiple times" diagnostic and the try-help hint; the
    check comes before any type-specific branch (same result for every form
    of the match).  When the scan reaches a token whose first match is an
    array argument, with or without a value, the step never prints that
    diagnostic: the argument is left as it was or gets elements appended,
    and the scan goes on after the consumed tokens (or stops on a value
    error). *)
Theorem duplicate_rejected f ctx i tok :
  nth_error (argv ctx) i = Some tok -> 1 < String.length tok ->
  (forall j a m,
     find_arg_from 0 (args ctx) tok = Some (j, a, m) ->
     has_value a = true -> _xo_args_arg_flag_is_array (flags a) = false ->
     submit_scan pd (S f) ctx i
       = (false, print (print ctx [EvMultiple tok]) [EvTryHelp (app_name ctx)])
     /\ (forall m', _xo_args_try_parse_arg pd ctx i a m' = (false, i, a, [EvMultiple tok])))
  /\ (forall j b m T,
        find_arg_from 0 (args ctx) tok = Some (j, b, m) ->
        Z.land (flags b) all_types = T -> array_type T ->
        exists (ok : bool) (i' : nat) b' (evs : list (@xo_event double)),
          submit_scan pd (S f) ctx i
          = (let ctx' := print (set_args ctx (list_set j b' (args ctx))) evs in
             if ok then submit_scan pd f ctx' (S i')
             else (false, print ctx' [EvTryHelp (app_name ctx)]))
          /\ ~ In (EvMultiple tok) evs
          /\ (b' = b \/ exists new, new <> []
                /\ b' = set_value b true (Array (array_elems b ++ new)))).
Proof.
  intros Hi Hl.
  assert (Htok : nth i (argv ctx) "" = tok) by exact (nth_error_nth _ _ _ Hi).
  split.
  - intros j a m Hf Hv Hna. split.
    + rewrite (scan_step pd f ctx i tok j a m Hi Hl Hf), (try_parse_arg_dup pd ctx i a m Hv Hna).
      destruct (find_arg_from_spec _ _ _ _ _ _ Hf) as (_ & Hj & _).
      rewrite Nat.sub_0_r in Hj. rewrite Htok, (list_set_same _ _ _ Hj), set_args_same.
      reflexivity.
    + intros m'. now rewrite (try_parse_arg_dup pd ctx i a m' Hv Hna), Htok.
  - intros j b m T Hf HT HA.
    destruct (_xo_args_try_parse_arg pd ctx i b m) as [[[ok i'] b'] evs] eqn:H.
    exists ok, i', b', evs. split.
    { rewrite (scan_step pd f ctx i tok j b m Hi Hl Hf), H. reflexivity. }
    rewrite (try_parse_arg_array pd ctx i b m T HT HA), Htok in H.
    assert (Herr : @array_err double T tok <> EvMultiple tok).
    { unfold array_err. destruct (T =? _)%Z; [discriminate|].
      destruct (T =? _)%Z; [discriminate|]. destruct (T =? _)%Z; discriminate. }
    destruct (parse_array_shape _ _ _ _ _ _ _ _ _ H)
      as [(_ & _ & -> & Hev) | (_ & Hev & new & Hne & -> & _)].
    + split; [|now left].
      destruct Hev as [-> | ->]; simpl; intros [E|[]]; [discriminate|congruence].
    + split; [|right; eauto].
      destruct Hev as [-> | (_ & ->)]; simpl; [tauto|]. intros [E|[]]. congruence.
Qed.

Lemma switch_get_bool a :
  Z.land (flags a) all_types = XO_ARGS_TYPE_SWITCH ->
  xo_args_try_get_bool (Some a) = Some (has_value a).
Proof. intros HT. unfold xo_args_try_get_bool. type_flags HT. reflexivity. Qed.

Lemma declare_switch_required c nm sn vt d :
  xo_args_declare_arg c nm sn vt d (Z.lor XO_ARGS_TYPE_SWITCH XO_ARGS_ARG_REQUIRED)
  = xo_args_declare_arg c nm sn vt d XO_ARGS_TYPE_SWITCH.
Proof. reflexivity. Qed.

Lemma declare_switch_optional c nm sn vt d h c' :
  xo_args_declare_arg c nm sn vt d XO_ARGS_TYPE_SWITCH = (Some h, c') ->
  exists b, nth_error (args c') h = Some b /\ is_required b = false
    /\ Z.land (flags b) all_types = XO_ARGS_TYPE_SWITCH.
Proof.
  unfold xo_args_declare_arg. intros H.
  repeat match type of H with
  | context [if ?c then _ else _] => destruct c
  | context [match find_conflict ?x ?y ?z with _ => _ end] => destruct (find_conflict x y z)
  end; inversion H; subst.
  all: eexists; split;
    [simpl; rewrite nth_error_app2, Nat.sub_diag by lia; reflexivity
    |split; reflexivity].
Qed.

(** C5 (amended): a switch declared required is declared exactly as an
    optional switch (not refused, not required); a switch consumes no
    token; [xo_args_try_get_bool] on a switch always succeeds with
    [has_value]; it stays unset when no token of argv matches it, and it is
    set (and stays set) once the scan reaches a token matching it as a flag.
    A switch token consumed as the value of a preceding argument does not
    set it: when the scan at [argv[i]] parses another argument that takes
    [argv[i+1..i']], whatever these tokens are, and no later token matches
    the switch, the switch keeps its state. *)
Theorem switch_semantics ctx f i j a :
  nth_error (args ctx) j = Some a ->
  Z.land (flags a) all_types = XO_ARGS_TYPE_SWITCH ->
  (forall c nm sn vt d,
     xo_args_declare_arg c nm sn vt d (Z.lor XO_ARGS_TYPE_SWITCH XO_ARGS_ARG_REQUIRED)
     = xo_args_declare_arg c nm sn vt d XO_ARGS_TYPE_SWITCH)
  /\ (forall c nm sn vt d h c',
        xo_args_declare_arg c nm sn vt d (Z.lor XO_ARGS_TYPE_SWITCH XO_ARGS_ARG_REQUIRED)
        = (Some h, c') ->
        exists b, nth_error (args c') h = Some b /\ is_required b = false)
  /\ (forall m ok i' a' evs, _xo_args_try_parse_arg pd ctx i a m = (ok, i', a', evs) -> i' = i)
  /\ xo_args_try_get_bool (Some a) = Some (has_value a)
  /\ (forall ok ctx',
        (forall t, In t (argv ctx) -> _xo_args_arg_matches_input a t = None) ->
        submit_scan pd f ctx i = (ok, ctx') ->
        xo_args_try_get_bool (nth_error (args ctx') j) = Some (has_value a))
  /\ (forall tok m ok ctx',
        nth_error (argv ctx) i = Some tok -> 1 < String.length tok ->
        find_arg_from 0 (args ctx) tok = Some (j, a, m) ->
        submit_scan pd (S f) ctx i = (ok, ctx') ->
        xo_args_try_get_bool (nth_error (args ctx') j) = Some true)
  /\ (forall tok k b m i' b' evs ok ctx',
        nth_error (argv ctx) i = Some tok -> 1 < String.length tok ->
        find_arg_from 0 (args ctx) tok = Some (k, b, m) -> k <> j ->
        _xo_args_try_parse_arg pd ctx i b m = (true, i', b', evs) ->
        (forall n t, S i' <= n -> nth_error (argv ctx) n = Some t ->
                     _xo_args_arg_matches_input a t = None) ->
        submit_scan pd (S f) ctx i = (ok, ctx') ->
        xo_args_try_get_bool (nth_error (args ctx') j) = Some (has_value a)).
Proof.
  intros Hj HT.
  assert (Hna : _xo_args_arg_flag_is_array (flags a) = false) by (type_flags HT; reflexivity).
  split; [|split; [|split; [|split; [|split; [|split]]]]].
  - exact declare_switch_required.
  - intros c nm sn vt d h c' H. rewrite declare_switch_required in H.
    destruct (declare_switch_optional _ _ _ _ _ _ _ H) as (b & Hb & Hr & _). eauto.
  - intros m ok i' a' evs H. destruct (has_value a) eqn:Hv.
    + rewrite (try_parse_arg_dup pd ctx i a m Hv Hna) in H. now inversion H.
    + rewrite (try_parse_arg_switch pd ctx i a m HT Hv) in H. now inversion H.
  - exact (switch_get_bool a HT).
  - intros ok ctx' Hno H. rewrite (scan_frame pd _ _ _ _ _ _ _ Hj Hno H).
    exact (switch_get_bool a HT).
  - intros tok m ok ctx' Hi Hl Hf H.
    rewrite (scan_step pd f ctx i tok j a m Hi Hl Hf) in H.
    destruct (has_value a) eqn:Hv.
    + rewrite (try_parse_arg_dup pd ctx i a m Hv Hna) in H. inversion H; subst. simpl.
      rewrite (list_set_nth _ _ _ _ Hj), (switch_get_bool a HT). now rewrite Hv.
    + rewrite (try_parse_arg_switch pd ctx i a m HT Hv) in H.
      destruct (scan_keeps_value pd f
                  (print (set_args ctx (list_set j (set_value a true (value a)) (args ctx))) [])
                  (S i) j (set_value a true (value a)) ok ctx'
                  (list_set_nth _ _ _ _ Hj) eq_refl H) as (b & Hb & Hvb & Hfb & _).
      rewrite Hb, switch_get_bool; [now rewrite Hvb|]. rewrite Hfb. exact HT.
  - intros tok k b m i' b' evs ok ctx' Hi Hl Hf Hkj Hp Hno H.
    rewrite (scan_step pd f ctx i tok k b m Hi Hl Hf), Hp in H. cbv zeta in H.
    assert (Hj' : nth_error (list_set k b' (args ctx)) j = Some a)
      by now rewrite list_set_other.
    rewrite (scan_frame_from pd f (print (set_args ctx (list_set k b' (args ctx))) evs)
               (S i') j a ok ctx' Hj' Hno H).
    exact (switch_get_bool a HT).
Qed.

(** C6: once the scan has gone through argv without error, the implicit
    help switch is looked at first and the version switch second, before
    any required argument: a set help switch makes submit print the help
    text and return [false], whatever the other arguments; a set version
    switch (with a version string) does the same, and that text starts with
    exactly the line [xo_args_print_version] prints.  The help text holds no
    diagnostic and no try-help hint. *)
Theorem help_version_first ctx :
  fst (scanned pd ctx) = true ->
  (xo_args_try_get_bool (deref (snd (scanned pd ctx)) (fst (implicit_handles ctx)))
     = Some true ->
   xo_args_submit pd ctx
   = (false, print (snd (scanned pd ctx)) (xo_args_print_help (snd (scanned pd ctx)))))
  /\ (xo_args_try_get_bool (deref (snd (scanned pd ctx)) (fst (implicit_handles ctx)))
        <> Some true ->
      app_version (snd (scanned pd ctx)) <> None ->
      xo_args_try_get_bool (deref (snd (scanned pd ctx)) (snd (implicit_handles ctx)))
        = Some true ->
      xo_args_submit pd ctx
      = (false, print (snd (scanned pd ctx)) (xo_args_print_help (snd (scanned pd ctx))))
      /\ firstn 1 (xo_args_print_help (snd (scanned pd ctx)))
         = xo_args_print_version (snd (scanned pd ctx)))
  /\ forallb (fun e => negb (is_diagnostic e)) (xo_args_print_help (snd (scanned pd ctx)))
     = true.
Proof.
  rewrite submit_scanned. destruct (scanned pd ctx) as [ok c3]. simpl.
  intros Hok. rewrite Hok.
  split; [|split].
  - intros Hh. unfold submit_checks. now rewrite Hh.
  - intros Hh Hver Hv. unfold submit_checks.
    destruct (xo_args_try_get_bool (deref c3 (fst (implicit_handles ctx)))) as [[|]|] eqn:E1;
      [congruence| |]; rewrite Hv; (destruct (app_version c3) eqn:E; [|congruence]);
      split; try reflexivity; unfold xo_args_print_help, xo_args_print_version;
      now rewrite E.
  - apply help_no_diagnostic.
Qed.

(** C7 (amended): after a scan without error and with neither the help
    nor the version switch set, submit fails naming the first required
    argument without a value, in declaration order, with the try-help hint
    (no other missing argument is named); when every required argument has
    a value, submit returns [true]. *)
Theorem required_check ctx :
  fst (scanned pd ctx) = true ->
  xo_args_try_get_bool (deref (snd (scanned pd ctx)) (fst (implicit_handles ctx)))
    <> Some true ->
  xo_args_try_get_bool (deref (snd (scanned pd ctx)) (snd (implicit_handles ctx)))
    <> Some true ->
  (forall pre a post,
     args (snd (scanned pd ctx)) = pre ++ a :: post ->
     is_required a = true -> has_value a = false ->
     forallb (fun b => negb (is_required b) || has_value b) pre = true ->
     xo_args_submit pd ctx
     = (false, print (snd (scanned pd ctx))
                 [EvRequired (name a) (short_name a);
                  EvTryHelp (app_name (snd (scanned pd ctx)))]))
  /\ (forallb (fun b => negb (is_required b) || has_value b) (args (snd (scanned pd ctx)))
       = true ->
      xo_args_submit pd ctx = (true, snd (scanned pd ctx))).
Proof.
  rewrite submit_scanned. destruct (scanned pd ctx) as [ok c3]. simpl.
  intros Hok Hh Hv. rewrite Hok.
  assert (Hc : submit_checks c3 (fst (implicit_handles ctx)) (snd (implicit_handles ctx))
             = match first_missing_required (args c3) with
               | Some a => (false, print c3 [EvRequired (name a) (short_name a);
                                             EvTryHelp (app_name c3)])
               | None => (true, c3) end).
  { unfold submit_checks.
    destruct (xo_args_try_get_bool (deref c3 (fst (implicit_handles ctx)))) as [[|]|] eqn:E1;
      [congruence| |]; destruct (xo_args_try_get_bool (deref c3 (snd (implicit_handles ctx))))
        as [[|]|] eqn:E2; try congruence; rewrite ?andb_false_r; reflexivity. }
  split.
  - intros pre a post Ha Hr Hva Hpre. rewrite Hc, Ha.
    clear Ha. induction pre as [|b pre IH]; simpl.
    + now rewrite Hr, Hva.
    + simpl in Hpre. apply andb_prop in Hpre as [Hb Hpre].
      replace (is_required b && negb (has_value b)) with false
        by (destruct (is_required b), (has_value b); simpl in *; congruence).
      now apply IH.
  - intros Hall. rewrite Hc. revert Hall. generalize (args c3).
    induction l as [|b l IH]; simpl; [reflexivity|].
    intros H. apply andb_prop in H as [Hb H].
    replace (is_required b && negb (has_value b)) with false
      by (destruct (is_required b), (has_value b); simpl in *; congruence).
    now apply IH.
Qed.

(** C4 (amended): for a name and a short name whose last character is a
    letter, a digit or ['-'] (the last character is not looked at by the
    check), and a short name that is either absent or not empty, the
    declaration returns no handle exactly when the name is empty or holds a
    character other than a letter, a digit or ['-'], the short name holds
    such a character, more than one type flag is set, or an argument
    already declared has the same name or the same short name. *)
Theorem declare_rejects ctx nm sn vt d fl :
  ends_alnum nm = true ->
  (forall s, sn = Some s -> s <> "" /\ ends_alnum s = true) ->
  fst (xo_args_declare_arg ctx nm sn vt d fl) = None <->
  spec_alnum_name nm = false
  \/ (exists s, sn = Some s /\ spec_alnum_name s = false)
  \/ 1 < spec_type_count fl
  \/ (exists e, In e (args ctx) /\ (name e = nm \/ (sn <> None /\ short_name e = sn))).
Proof.
  intros Hn Hs. unfold xo_args_declare_arg. rewrite (isalnum_str_spec nm Hn).
  destruct (spec_alnum_name nm) eqn:Hnm; cbn [negb andb orb fst];
    [|split; intros _; [left; reflexivity|reflexivity]].
  rewrite type_bits_count.
  assert (Hrest : forall (P : Prop), ~ P ->
    fst (if Nat.ltb 1 (spec_type_count fl) then (None, ctx)
         else match find_conflict nm sn (args ctx) with
              | Some ev => (None, print ctx [ev])
              | None => (Some (length (args ctx)), set_args ctx (args ctx ++
                  [mk_arg nm sn (match vt with Some t => Some t
                    | None => default_value_tip (declared_flags fl) end)
                    d (declared_flags fl) false
                    (if _xo_args_arg_flag_is_array fl then Array [] else Single None)]))
              end) = None
    <-> true = false \/ P \/ 1 < spec_type_count fl
        \/ (exists e, In e (args ctx) /\ (name e = nm \/ (sn <> None /\ short_name e = sn)))).
  { intros P HP.
    destruct (Nat.ltb_spec 1 (spec_type_count fl)) as [Hlt|Hge]; cbn [fst].
    - split; intros _; [now right; right; left|reflexivity].
    - destruct (find_conflict nm sn (args ctx)) eqn:Hc; cbn [fst].
      + split; intros _; [|reflexivity]. right. right. right.
        apply find_conflict_some. now rewrite Hc.
      + split; [discriminate|]. intros [H|[H|[H|H]]]; [discriminate|contradiction|lia|].
        apply find_conflict_some in H. rewrite Hc in H. discriminate. }
  destruct sn as [s|].
  - destruct (Hs s eq_refl) as [Hne Hes]. rewrite (isalnum_str_spec s Hes).
    replace (Nat.ltb 0 (String.length s)) with true by (destruct s; [congruence|reflexivity]).
    destruct (spec_alnum_name s) eqn:Hss; cbn [negb andb].
    + apply Hrest. intros (s1 & E & H). injection E as <-. congruence.
    + cbn [fst]. split; intros _; [right; left; eauto|reflexivity].
  - cbn [Nat.ltb Nat.leb andb]. apply Hrest. intros (s1 & E & H). discriminate.
Qed.

(** C1 (amended): at an array flag (any array type, any form of the match)
    the token after the flag is read as the first element whatever it looks
    like, even a declared flag; then each following token is appended until
    one matches a declared argument (left to the scanning loop) or argv
    ends.  Every one of these tokens must satisfy the element grammar of the
    array type: when one does not, the branch fails (with the elements read
    before it kept).  A string array accepts every token.  In the scanning
    loop of submit, the argument is stored with the new elements and the
    loop goes on at the token that stopped the slurp.  After submit, with
    only a string array [foo], [--foo --foo] gives [foo = ["--foo"]]; with an
    int array [foo] it fails; with [foo] (string or int array) and [bar]
    (string), [--foo 1 2 --bar X] gives [foo = [1,2]] and [bar = "X"]. *)
Theorem array_slurp ctx i a m T t0 :
  Z.land (flags a) all_types = T -> array_type T ->
  nth_error (argv ctx) (S i) = Some t0 ->
  (forall v0 toks vs rest,
     array_elem_parser pd T t0 = Some v0 ->
     skipn (S (S i)) (argv ctx) = toks ++ rest ->
     slurpable (args ctx) (array_elem_parser pd T) toks vs ->
     (rest = [] \/ exists t r, rest = t :: r /\ any_arg_matches (args ctx) t = true) ->
     _xo_args_try_parse_arg pd ctx i a m
     = (true, S i + length toks, set_value a true (Array (array_elems a ++ v0 :: vs)), []))
  /\ (array_elem_parser pd T t0 = None ->
      _xo_args_try_parse_arg pd ctx i a m
      = (false, i, a, [array_err T (nth i (argv ctx) "")]))
  /\ (forall v0 toks vs t rest,
        array_elem_parser pd T t0 = Some v0 ->
        skipn (S (S i)) (argv ctx) = toks ++ t :: rest ->
        slurpable (args ctx) (array_elem_parser pd T) toks vs ->
        any_arg_matches (args ctx) t = false -> array_elem_parser pd T t = None ->
        _xo_args_try_parse_arg pd ctx i a m
        = (false, S i + length toks, set_value a true (Array (array_elems a ++ v0 :: vs)),
           [array_err T (nth i (argv ctx) "")]))
  /\ (T = XO_ARGS_TYPE_STRING_ARRAY -> forall t, array_elem_parser pd T t = Some (XString t))
  /\ (forall f tok j v0 toks vs rest,
        nth_error (argv ctx) i = Some tok -> 1 < String.length tok ->
        find_arg_from 0 (args ctx) tok = Some (j, a, m) ->
        array_elem_parser pd T t0 = Some v0 ->
        skipn (S (S i)) (argv ctx) = toks ++ rest ->
        slurpable (args ctx) (array_elem_parser pd T) toks vs ->
        (rest = [] \/ exists t r, rest = t :: r /\ any_arg_matches (args ctx) t = true) ->
        submit_scan pd (S f) ctx i
        = submit_scan pd f
            (print (set_args ctx
               (list_set j (set_value a true (Array (array_elems a ++ v0 :: vs))) (args ctx))) [])
            (S (S i + length toks)))
  /\ (let r := run ["prog"; "--foo"; "--foo"] [("foo", None, XO_ARGS_TYPE_STRING_ARRAY)] in
      fst r = true /\ xo_args_try_get_string_array (arg_of r 0) = Some ["--foo"])
  /\ (let r := run ["prog"; "--foo"; "--foo"] [("foo", None, XO_ARGS_TYPE_INT_ARRAY)] in
      fst r = false /\ xo_args_try_get_int_array (arg_of r 0) = None)
  /\ (let r := run ["prog"; "--foo"; "1"; "2"; "--bar"; "X"]
                [("foo", None, XO_ARGS_TYPE_STRING_ARRAY); ("bar", None, XO_ARGS_TYPE_STRING)] in
      fst r = true /\ xo_args_try_get_string_array (arg_of r 0) = Some ["1"; "2"]
      /\ xo_args_try_get_string (arg_of r 1) = Some "X")
  /\ (let r := run ["prog"; "--foo"; "1"; "2"; "--bar"; "X"]
                [("foo", None, XO_ARGS_TYPE_INT_ARRAY); ("bar", None, XO_ARGS_TYPE_STRING)] in
      fst r = true /\ xo_args_try_get_int_array (arg_of r 0) = Some [1%Z; 2%Z]
      /\ xo_args_try_get_string (arg_of r 1) = Some "X").
Proof.
  intros HT HA H0.
  pose proof (try_parse_arg_array pd ctx i a m T HT HA) as Hd.
  split; [|split; [|split; [|split; [|split; [|split; [|split; [|split]]]]]]].
  - intros v0 toks vs rest Hp Hs Hsl Hr. rewrite Hd.
    exact (parse_array_run ctx i a _ _ t0 v0 toks vs rest H0 Hp Hs Hsl Hr).
  - intros Hp. rewrite Hd. unfold parse_array. now rewrite H0, Hp.
  - intros v0 toks vs t rest Hp Hs Hsl Ht Hpt. rewrite Hd. unfold parse_array.
    rewrite H0, Hp, Hs, (slurp_fail _ _ _ _ _ _ _ _ _ Hsl Ht Hpt), <- app_assoc.
    reflexivity.
  - intros -> t. reflexivity.
  - intros f tok j v0 toks vs rest Hi Hl Hf Hp Hs Hsl Hr.
    exact (scan_array_flag pd f ctx i tok j a m T t0 v0 toks vs rest
             Hi Hl Hf HT HA H0 Hp Hs Hsl Hr).
  - vm_compute. split; reflexivity.
  - vm_compute. split; reflexivity.
  - vm_compute. repeat split.
  - vm_compute. repeat split.
Qed.

(** C2 (amended): the int array keeps the values in the order they appear
    on the command line, and repeating the flag before a second run of
    values gives the same array as listing all the values after one flag:
    for an int array [foo] that no argument declared before it matches as
    [--foo], [--foo ts1 ts2] and [--foo ts1 --foo ts2] both read back
    [vs1 ++ vs2] (for [ts1 = 1 2], [ts2 = 3]: [1,2,3]). *)
Theorem int_array_encounter_order prog app ver doc log before a others ts1 vs1 ts2 vs2 :
  Z.land (flags a) all_types = XO_ARGS_TYPE_INT_ARRAY -> name a <> "" ->
  value a = Array [] ->
  any_arg_matches before ("--" ++ name a)%string = false ->
  int_tokens ts1 vs1 -> int_tokens ts2 vs2 -> ts1 <> [] -> ts2 <> [] ->
  let foo := ("--" ++ name a)%string in
  let get argv0 := xo_args_try_get_int_array
        (deref (snd (xo_args_submit pd (mk_ctx argv0 app ver doc (before ++ a :: others) log)))
           (Some (length before))) in
  get (prog :: foo :: ts1 ++ ts2) = Some (vs1 ++ vs2)
  /\ get (prog :: foo :: ts1 ++ foo :: ts2) = Some (vs1 ++ vs2).
Proof.
  intros HT Hn Hval Hbef H1 H2 Hne1 Hne2 foo get.
  destruct ts1 as [|t0 r1]; [congruence|].
  inversion H1 as [|? v0 ? w1 [Hd0 Hp0] Hr1]; subst.
  destruct ts2 as [|u0 r2]; [congruence|].
  inversion H2 as [|? u ? w2 [Hdu Hpu] Hr2]; subst.
  assert (HA : array_type XO_ARGS_TYPE_INT_ARRAY) by (right; left; reflexivity).
  assert (Hl : 1 < String.length foo) by (unfold foo; simpl; lia).
  split; unfold get, xo_args_submit.
  - destruct (declare_implicit _) as [[h v] c2] eqn:Ed.
    destruct (declare_implicit_shape _ _ _ _ Ed) as (Ha & _ & _ & extra & Hargs).
    simpl in Ha, Hargs. rewrite <- app_assoc in Hargs. cbn [List.app] in Hargs.
    unfold argc. rewrite Ha. cbn [length].
    rewrite (scan_array_flag pd _ c2 1 foo (length before) a
               (mk_match _XO_ARGS_ARG_MATCH_TYPE_NAME (name a))
               XO_ARGS_TYPE_INT_ARRAY t0 (XInt v0) (r1 ++ u0 :: r2) (map XInt (w1 ++ u :: w2)) []); cycle 1.
    + now rewrite Ha.
    + exact Hl.
    + rewrite Hargs. now apply find_long_after.
    + exact HT.
    + exact HA.
    + now rewrite Ha.
    + rewrite elem_parser_int. unfold parse_int_scalar. now rewrite Hp0.
    + rewrite Ha. simpl. now rewrite app_nil_r.
    + apply int_tokens_slurpable, int_tokens_app; [exact Hr1|now constructor].
    + now left.
    + rewrite scan_end; cycle 1.
      { rewrite print_argv. simpl. rewrite Ha. apply nth_error_None. simpl. lia. }
      simpl. rewrite submit_checks_args. simpl. rewrite Hargs, list_set_mid, nth_error_mid.
      replace (array_elems a) with (@nil (@xo_scalar double))
        by (unfold array_elems; now rewrite Hval).
      simpl. type_flags HT. simpl. now rewrite map_scalar_int.
  - destruct (declare_implicit _) as [[h v] c2] eqn:Ed.
    destruct (declare_implicit_shape _ _ _ _ Ed) as (Ha & _ & _ & extra & Hargs).
    simpl in Ha, Hargs. rewrite <- app_assoc in Hargs. cbn [List.app] in Hargs.
    unfold argc. rewrite Ha. cbn [length].
    rewrite (scan_array_flag pd _ c2 1 foo (length before) a
               (mk_match _XO_ARGS_ARG_MATCH_TYPE_NAME (name a))
               XO_ARGS_TYPE_INT_ARRAY t0 (XInt v0) r1 (map XInt w1)
               (foo :: u0 :: r2)); cycle 1.
    + now rewrite Ha.
    + exact Hl.
    + rewrite Hargs. now apply find_long_after.
    + exact HT.
    + exact HA.
    + now rewrite Ha.
    + rewrite elem_parser_int. unfold parse_int_scalar. now rewrite Hp0.
    + now rewrite Ha.
    + now apply int_tokens_slurpable.
    + right. exists foo, (u0 :: r2). split; [reflexivity|].
      apply (any_matches_in _ a); [rewrite Hargs; apply in_or_app; right; now left|].
      unfold foo. now rewrite (matches_long_name a Hn).
    + rewrite Hargs, list_set_mid.
      set (a1 := set_value a true (Array (array_elems a ++ XInt v0 :: map XInt w1))).
      rewrite (scan_array_flag pd _ _ _ foo (length before) a1
                 (mk_match _XO_ARGS_ARG_MATCH_TYPE_NAME (name a))
                 XO_ARGS_TYPE_INT_ARRAY u0 (XInt u) r2 (map XInt w2) []); cycle 1.
      * cbn [argv print set_args]. rewrite Ha.
        match goal with |- nth_error _ ?n = _ => replace n with (3 + (length r1 + 0)) by lia end.
        cbn [Nat.add nth_error]. now rewrite nth_error_app_len.
      * exact Hl.
      * exact (find_long_after before a1 (others ++ extra) Hn Hbef).
      * exact HT.
      * exact HA.
      * cbn [argv print set_args]. rewrite Ha.
        match goal with |- nth_error _ ?n = _ => replace n with (3 + (length r1 + 1)) by lia end.
        cbn [Nat.add nth_error]. now rewrite nth_error_app_len.
      * rewrite elem_parser_int. unfold parse_int_scalar. now rewrite Hpu.
      * cbn [argv print set_args]. rewrite Ha.
        match goal with |- skipn ?n _ = _ => replace n with (3 + (length r1 + 2)) by lia end.
        cbn [Nat.add skipn]. rewrite skipn_app_len. simpl. now rewrite app_nil_r.
      * now apply int_tokens_slurpable.
      * now left.
      * rewrite scan_end_any; cycle 1.
        { cbn [argv print set_args]. rewrite Ha. apply nth_error_None.
          cbn [length]. rewrite List.length_app. cbn [length]. lia. }
        simpl. rewrite submit_checks_args. simpl. rewrite list_set_mid, nth_error_mid.
        subst a1.
        replace (array_elems a) with (@nil (@xo_scalar double))
          by (unfold array_elems; now rewrite Hval).
        simpl. type_flags HT. simpl. unfold array_elems. simpl.
        rewrite map_app. simpl. now rewrite !map_scalar_int.
Qed.

End Claims.

(* ------------------------------------------------------------------------- *)
(** * Concrete runs *)

(** C1: with an int array [foo], [--foo --foo] does not take the second
    [--foo] as an element: it fails the integer grammar and submit fails. *)
Lemma int_array_flag_token_refused :
  let r := run ["prog"; "--foo"; "--foo"] [("foo", None, XO_ARGS_TYPE_INT_ARRAY)] in
  fst r = false /\ xo_args_try_get_int_array (arg_of r 0) = None
  /\ printed (snd r) = [EvInvalidInt "--foo"; EvTryHelp "prog"].
Proof. vm_compute. repeat split. Qed.

Lemma array_slurp_witness :
  Z.land (flags foo_string_array) all_types = XO_ARGS_TYPE_STRING_ARRAY
  /\ _xo_args_try_parse_arg no_strtod
       (setup ["prog"; "--foo"; "1"; "2"; "--bar"; "X"] None
          [("foo", None, XO_ARGS_TYPE_STRING_ARRAY); ("bar", None, XO_ARGS_TYPE_STRING)])
       1 foo_string_array (match_name "foo")
     = (true, 3, set_value foo_string_array true (Array [XString "1"; XString "2"]), []).
Proof.
  assert (HT : Z.land (flags foo_string_array) all_types = XO_ARGS_TYPE_STRING_ARRAY)
    by reflexivity.
  assert (HA : array_type XO_ARGS_TYPE_STRING_ARRAY) by (left; reflexivity).
  split; [exact HT|].
  destruct (array_slurp no_strtod
              (setup ["prog"; "--foo"; "1"; "2"; "--bar"; "X"] None
                 [("foo", None, XO_ARGS_TYPE_STRING_ARRAY); ("bar", None, XO_ARGS_TYPE_STRING)])
              1 foo_string_array (match_name "foo") XO_ARGS_TYPE_STRING_ARRAY "1" HT HA
              eq_refl) as [H _].
  apply (H (XString "1") ["2"] [XString "2"] ["--bar"; "X"]).
  - reflexivity.
  - reflexivity.
  - constructor; [split; reflexivity|constructor].
  - right. exists "--bar", ["X"]. split; reflexivity.
Defined.

(** C2: an argument [x] declared before the int array [foo], with the short
    name ["-foo"] (accepted by the declaration), matches the token [--foo]
    first: [x] takes ["1"], ["2"] is an unknown argument, submit fails and
    [foo] has no value. *)
Lemma int_array_flag_captured :
  let r := run ["prog"; "--foo"; "1"; "2"; "3"]
             [("x", Some "-foo", XO_ARGS_TYPE_STRING); ("foo", None, XO_ARGS_TYPE_INT_ARRAY)] in
  length (args (setup ["prog"] None
            [("x", Some "-foo", XO_ARGS_TYPE_STRING); ("foo", None, XO_ARGS_TYPE_INT_ARRAY)])) = 2
  /\ fst r = false /\ xo_args_try_get_int_array (arg_of r 1) = None
  /\ xo_args_try_get_string (arg_of r 0) = Some "1"
  /\ printed (snd r) = [EvUnknown "2"; EvTryHelp "prog"].
Proof. vm_compute. repeat split. Qed.

(** C2 at [--foo 1 2 3] and [--foo 1 2 --foo 3]: both read back [1,2,3]. *)
Lemma int_array_encounter_order_witness :
  xo_args_try_get_int_array
    (deref (snd (xo_args_submit no_strtod
       (mk_ctx ["prog"; "--foo"; "1"; "2"; "3"] "prog" None None [foo_int_array] [])))
       (Some 0)) = Some [1%Z; 2%Z; 3%Z]
  /\ xo_args_try_get_int_array
    (deref (snd (xo_args_submit no_strtod
       (mk_ctx ["prog"; "--foo"; "1"; "2"; "--foo"; "3"] "prog" None None [foo_int_array] [])))
       (Some 0)) = Some [1%Z; 2%Z; 3%Z].
Proof.
  assert (H1 : int_tokens ["1"; "2"] [1%Z; 2%Z]) by (repeat constructor).
  assert (H2 : int_tokens ["3"] [3%Z]) by (repeat constructor).
  exact (int_array_encounter_order no_strtod "prog" "prog" None None [] [] foo_int_array []
           ["1"; "2"] [1%Z; 2%Z] ["3"] [3%Z] eq_refl ltac:(discriminate) eq_refl eq_refl
           H1 H2 ltac:(discriminate) ltac:(discriminate)).
Defined.

(** C3: a second [--name] taken as the value of the string argument [s]
    does not reach the duplicate check: submit succeeds. *)
Lemma duplicate_flag_as_value :
  let r := run ["prog"; "--name"; "A"; "--s"; "--name"]
             [("name", None, XO_ARGS_TYPE_STRING); ("s", None, XO_ARGS_TYPE_STRING)] in
  fst r = true /\ xo_args_try_get_string (arg_of r 0) = Some "A"
  /\ xo_args_try_get_string (arg_of r 1) = Some "--name" /\ printed (snd r) = [].
Proof. vm_compute. repeat split. Qed.

Lemma duplicate_rejected_witness :
  submit_scan no_strtod 1
    (mk_ctx ["prog"; "--name"; "A"; "--name"; "B"] "prog" None None [name_given] []) 3
  = (false, mk_ctx ["prog"; "--name"; "A"; "--name"; "B"] "prog" None None [name_given]
              [EvMultiple "--name"; EvTryHelp "prog"])
  /\ submit_scan no_strtod 4
       (mk_ctx ["prog"; "--foo"; "1"; "--foo"; "2"] "prog" None None
          [set_value foo_string_array true (Array [XString "1"])] []) 3
     = (true, mk_ctx ["prog"; "--foo"; "1"; "--foo"; "2"] "prog" None None
                [set_value foo_string_array true (Array [XString "1"; XString "2"])] [])
  /\ exists (ok : bool) (i' : nat) b' (evs : list (@xo_event unit)),
       ~ In (EvMultiple "--foo") evs
       /\ (b' = set_value foo_string_array true (Array [XString "1"])
           \/ exists new, new <> []
               /\ b' = set_value (set_value foo_string_array true (Array [XString "1"])) true
                      (Array (XString "1" :: new))).
Proof.
  split.
  - destruct (duplicate_rejected no_strtod 0
                (mk_ctx ["prog"; "--name"; "A"; "--name"; "B"] "prog" None None [name_given] [])
                3 "--name" eq_refl ltac:(simpl; lia)) as [H _].
    exact (proj1 (H 0 name_given (match_name "name") eq_refl eq_refl eq_refl)).
  - destruct (duplicate_rejected no_strtod 3
                (mk_ctx ["prog"; "--foo"; "1"; "--foo"; "2"] "prog" None None
                   [set_value foo_string_array true (Array [XString "1"])] [])
                3 "--foo" eq_refl ltac:(simpl; lia)) as [_ H].
    split; [vm_compute; reflexivity|].
    destruct (H 0 (set_value foo_string_array true (Array [XString "1"])) (match_name "foo")
                XO_ARGS_TYPE_STRING_ARRAY eq_refl eq_refl ltac:(left; reflexivity))
      as (ok & i' & b' & evs & _ & Hn & Hb).
    exists ok, i', b', evs. split; [exact Hn|exact Hb].
Defined.

(** C4: a short name with a character other than a letter, a digit or
    ['-'] is refused, though the name is valid, nothing collides and one
    type flag is set. *)
Lemma short_name_refused :
  fst (xo_args_declare_arg (setup ["prog"] None []) "foo" (Some "!x") None None
         XO_ARGS_TYPE_STRING) = None.
Proof. vm_compute. reflexivity. Qed.

Lemma declare_rejects_witness :
  ends_alnum "foo" = true
  /\ fst (xo_args_declare_arg (setup ["prog"] None []) "foo" (Some "!x") None None
           XO_ARGS_TYPE_STRING) = None.
Proof.
  assert (Hn : ends_alnum "foo" = true) by reflexivity.
  assert (Hs : forall s, Some "!x" = Some s -> s <> "" /\ ends_alnum s = true).
  { intros s E. injection E as <-. split; [discriminate|reflexivity]. }
  split; [exact Hn|].
  apply (proj2 (declare_rejects (setup ["prog"] None []) "foo" (Some "!x") None None
                  XO_ARGS_TYPE_STRING Hn Hs)).
  right. left. exists "!x". split; reflexivity.
Defined.

(** C5: a switch token taken as the value of a string argument leaves the
    switch unset although it is in argv. *)
Lemma switch_token_as_value :
  let r := run ["prog"; "--name"; "--verbose"]
             [("name", None, XO_ARGS_TYPE_STRING); ("verbose", None, XO_ARGS_TYPE_SWITCH)] in
  fst r = true /\ xo_args_try_get_string (arg_of r 0) = Some "--verbose"
  /\ xo_args_try_get_bool (arg_of r 1) = Some false.
Proof. vm_compute. repeat split. Qed.

Lemma switch_semantics_witness :
  xo_args_try_get_bool (nth_error (args (snd (submit_scan no_strtod 1
     (setup ["prog"; "--verbose"] None [("verbose", None, XO_ARGS_TYPE_SWITCH)]) 1)))
     0) = Some true
  /\ xo_args_try_get_bool (nth_error (args (snd (submit_scan no_strtod 2
     (setup ["prog"; "--name"; "--verbose"] None
        [("name", None, XO_ARGS_TYPE_STRING); ("verbose", None, XO_ARGS_TYPE_SWITCH)]) 1)))
     1) = Some false.
Proof.
  split.
  - destruct (switch_semantics no_strtod
                (setup ["prog"; "--verbose"] None [("verbose", None, XO_ARGS_TYPE_SWITCH)])
                0 1 0 verbose_switch eq_refl eq_refl) as (_ & _ & _ & _ & _ & H & _).
    apply (H "--verbose" (match_name "verbose") true).
    + reflexivity.
    + simpl. lia.
    + reflexivity.
    + vm_compute. reflexivity.
  - set (c := setup ["prog"; "--name"; "--verbose"] None
                [("name", None, XO_ARGS_TYPE_STRING); ("verbose", None, XO_ARGS_TYPE_SWITCH)]).
    set (nm := mk_arg (double:=unit) "name" None (Some "<text>") None XO_ARGS_TYPE_STRING false
                 (Single None)).
    destruct (switch_semantics no_strtod c 1 1 1 verbose_switch eq_refl eq_refl)
      as (_ & _ & _ & _ & _ & _ & H).
    apply (H "--name" 0 nm (match_name "name") 2
             (set_value nm true (Single (Some (XString "--verbose")))) []
             (fst (submit_scan no_strtod 2 c 1))).
    + reflexivity.
    + simpl. lia.
    + reflexivity.
    + discriminate.
    + vm_compute. reflexivity.
    + intros n t Hn Ht. destruct n as [|[|[|n]]]; try lia. destruct n; discriminate.
    + destruct (submit_scan no_strtod 2 c 1). reflexivity.
Defined.

(** C6 at [prog -h] with a required argument missing: the help wins. *)
Lemma help_version_first_witness :
  fst (scanned no_strtod
         (setup ["prog"; "-h"] None [("name", None, required_string)])) = true
  /\ fst (xo_args_submit no_strtod
           (setup ["prog"; "-h"] None [("name", None, required_string)])) = false.
Proof.
  assert (H : fst (scanned no_strtod
                     (setup ["prog"; "-h"] None [("name", None, required_string)])) = true)
    by (vm_compute; reflexivity).
  split; [exact H|].
  rewrite (proj1 (help_version_first no_strtod _ H) ltac:(vm_compute; reflexivity)).
  reflexivity.
Defined.

(** C7: with two required arguments missing only the first is named. *)
Lemma only_first_required_named :
  let r := run ["prog"] [("a", None, required_string); ("b", None, required_string)] in
  fst r = false /\ printed (snd r) = [EvRequired "a" None; EvTryHelp "prog"].
Proof. vm_compute. repeat split. Qed.

Lemma required_check_witness :
  printed (snd (xo_args_submit no_strtod
    (setup ["prog"] None [("a", None, required_string); ("b", None, required_string)])))
  = [EvRequired "a" None; EvTryHelp "prog"].
Proof.
  set (c := setup ["prog"] None [("a", None, required_string); ("b", None, required_string)]).
  set (l := args (snd (scanned no_strtod c))).
  destruct (required_check no_strtod c ltac:(vm_compute; reflexivity)
              ltac:(vm_compute; discriminate) ltac:(vm_compute; discriminate)) as [H _].
  rewrite (H [] (hd foo_int_array l) (tl l) ltac:(vm_compute; reflexivity)
             ltac:(vm_compute; reflexivity) ltac:(vm_compute; reflexivity) eq_refl).
  vm_compute. reflexivity.
Defined.

Lemma array_assignment_value_ignored_witness :
  submit_scan no_strtod 1 (setup ["prog"; "--foo=X"] None
                             [("foo", None, XO_ARGS_TYPE_STRING_ARRAY)]) 1
  = (false, print (print (setup ["prog"; "--foo=X"] None
                             [("foo", None, XO_ARGS_TYPE_STRING_ARRAY)])
                   [EvNoValue "--foo=X"]) [EvTryHelp "prog"])
  /\ submit_scan no_strtod 1 (setup ["prog"; "-f=X"] None
                             [("foo", Some "f", XO_ARGS_TYPE_STRING_ARRAY)]) 1
  = (false, print (print (setup ["prog"; "-f=X"] None
                             [("foo", Some "f", XO_ARGS_TYPE_STRING_ARRAY)])
                   [EvNoValue "-f=X"]) [EvTryHelp "prog"]).
Proof.
  split.
  - destruct (array_assignment_value_ignored no_strtod
                (setup ["prog"; "--foo=X"] None [("foo", None, XO_ARGS_TYPE_STRING_ARRAY)])
                0 1 0 foo_string_array "--foo=X" "X"
                (mk_match _XO_ARGS_ARG_MATCH_TYPE_ASSIGN_NAME "foo") XO_ARGS_TYPE_STRING_ARRAY
                eq_refl ltac:(left; reflexivity)
                ltac:(left; split; [discriminate|split; reflexivity]) eq_refl)
      as (_ & _ & _ & H).
    exact (H eq_refl eq_refl).
  - destruct (array_assignment_value_ignored no_strtod
                (setup ["prog"; "-f=X"] None [("foo", Some "f", XO_ARGS_TYPE_STRING_ARRAY)])
                0 1 0 (mk_arg "foo" (Some "f") (Some "[text]") None XO_ARGS_TYPE_STRING_ARRAY
                         false (Array [])) "-f=X" "X"
                (mk_match _XO_ARGS_ARG_MATCH_TYPE_ASSIGN_SHORT_NAME "f") XO_ARGS_TYPE_STRING_ARRAY
                eq_refl ltac:(left; reflexivity)
                ltac:(right; exists "f"; repeat split) eq_refl)
      as (_ & _ & _ & H).
    exact (H eq_refl eq_refl).
Defined.

(** C10 at [prog --foo 1 2 bogus]: submit fails, [foo] keeps [1,2]. *)
Lemma array_error_keeps_prefix_witness :
  xo_args_try_get_int_array
    (nth_error (args (snd (submit_scan no_strtod 1
       (setup ["prog"; "--foo"; "1"; "2"; "bogus"] None
          [("foo", None, XO_ARGS_TYPE_INT_ARRAY)]) 1))) 0) = Some [1%Z; 2%Z]
  /\ fst (run ["prog"; "--foo"; "1"; "2"; "bogus"] [("foo", None, XO_ARGS_TYPE_INT_ARRAY)])
     = false
  /\ xo_args_try_get_int_array
       (arg_of (run ["prog"; "--foo"; "1"; "2"; "bogus"]
                 [("foo", None, XO_ARGS_TYPE_INT_ARRAY)]) 0) = Some [1%Z; 2%Z].
Proof.
  destruct (array_error_keeps_prefix no_strtod 0
              (setup ["prog"; "--foo"; "1"; "2"; "bogus"] None
                 [("foo", None, XO_ARGS_TYPE_INT_ARRAY)])
              1 "--foo" 0 foo_int_array (match_name "foo") XO_ARGS_TYPE_INT_ARRAY
              "1" (XInt 1) ["2"] [XInt 2] "bogus" []
              eq_refl ltac:(simpl; lia) eq_refl eq_refl ltac:(right; left; reflexivity)
              eq_refl eq_refl eq_refl
              ltac:(constructor; [split; reflexivity|constructor])
              eq_refl eq_refl) as (Hs & Hn & _).
  split; [|vm_compute; split; reflexivity].
  rewrite Hs. cbn [snd]. rewrite Hn. reflexivity.
Defined.


(* ------------------------------------------------------------------------- *)
(** * Further properties *)

(** ** The application name *)

Lemma get_in (t : string) (j : nat) (c : ascii) :
  String.get j t = Some c -> In c (list_ascii_of_string t).
Proof.
  revert j. induction t as [|x t IH]; intros [|j] H; simpl in *; try discriminate.
  - inversion H; auto.
  - right. eauto.
Qed.

Lemma char_at_app (s t : string) (j : nat) :
  char_at (s ++ t) (String.length s + j) = char_at t j.
Proof. unfold char_at. now rewrite get_app_r. Qed.

Lemma char_at_app_l (s t : string) (j : nat) :
  j < String.length s -> char_at (s ++ t) j = char_at s j.
Proof.
  revert j. induction s as [|x s IH]; intros [|j] H; simpl in *; try lia; auto.
  apply IH. lia.
Qed.

Lemma no_sep_char_at (t : string) (j : nat) :
  no_sep t = true -> is_path_sep (char_at t j) = false.
Proof.
  unfold no_sep, char_at. intros H.
  destruct (String.get j t) as [c|] eqn:E; [|reflexivity].
  apply get_in in E. rewrite forallb_forall in H. apply H in E.
  now destruct (is_path_sep c).
Qed.

Lemma plain_char_at (t : string) (j : nat) :
  plain_name t = true -> j < String.length t ->
  is_path_sep (char_at t j) = false /\ Ascii.eqb (char_at t j) "." = false.
Proof.
  unfold plain_name, char_at. intros H Hj.
  destruct (String.get j t) as [c|] eqn:E.
  - apply get_in in E. rewrite forallb_forall in H. apply H in E.
    destruct (is_path_sep c), (Ascii.eqb c "."); simpl in E; auto; discriminate.
  - exfalso. clear H. revert j Hj E. induction t as [|x t IH]; intros [|j] Hj E; simpl in *; try lia; try discriminate.
    apply (IH j); [lia|exact E].
Qed.

Lemma plain_no_sep (t : string) : plain_name t = true -> no_sep t = true.
Proof.
  unfold plain_name, no_sep. rewrite !forallb_forall. intros H c Hc.
  specialize (H c Hc). now destruct (is_path_sep c).
Qed.

Lemma no_sep_app (s t : string) : no_sep (s ++ t) = no_sep s && no_sep t.
Proof. unfold no_sep. induction s as [|x s IH]; simpl; [reflexivity|]. rewrite IH. apply andb_assoc. Qed.

Lemma start_skip (p : string) (k it : nat) :
  k <= it -> (forall j, k < j <= it -> is_path_sep (char_at p j) = false) ->
  basename_start_from p it = basename_start_from p k.
Proof.
  induction it as [|i IH]; intros Hk H.
  - now replace k with 0 by lia.
  - destruct (Nat.eq_dec k (S i)) as [->|Hne]; [reflexivity|].
    simpl. rewrite H by lia. apply IH; [lia|]. intros j Hj. apply H. lia.
Qed.

Lemma end_skip (p : string) (m : nat) : forall fuel it b,
  1 <= m -> m <= fuel ->
  (forall q, q < m -> Ascii.eqb (char_at p (it + q)) "." = false) ->
  basename_end_from p fuel it b = basename_end_from p (fuel - m) (it + m) (it + m - 1).
Proof.
  induction m as [|m IH]; intros fuel it b H1 Hf H; [lia|].
  destruct fuel as [|fuel]; [lia|]. simpl.
  assert (H0 := H 0 ltac:(lia)). rewrite Nat.add_0_r in H0. rewrite H0.
  destruct m as [|m].
  - rewrite Nat.sub_0_r. f_equal; lia.
  - rewrite (IH fuel (S it) it) by (try lia; intros q Hq; replace (S it + q) with (it + S q) by lia; apply H; lia).
    f_equal; lia.
Qed.

Lemma substring_app_mid (s t u : string) :
  substring (String.length s) (String.length t) (s ++ t ++ u) = t.
Proof.
  induction s as [|x s IH]; simpl; [|exact IH].
  induction t as [|y t IH]; simpl; [now destruct u|]. now rewrite IH.
Qed.


Lemma app_assoc_str (s t u : string) : s ++ t ++ u = (s ++ t) ++ u.
Proof. induction s as [|c s IH]; simpl; congruence. Qed.

(** X1: for a directory part that is empty or ends in a separator after at least one character, a stem with no separator and no dot, and a rest that is empty or starts with a dot and has no separator, [_xo_args_basename] returns the stem. *)
Theorem basename_stem (dir n rest : string) :
  (dir = "" \/ exists d, d <> "" /\ dir = d ++ "/") ->
  n <> "" -> plain_name n = true ->
  no_sep rest = true -> (rest = "" \/ exists r, rest = String "." r) ->
  _xo_args_basename (dir ++ n ++ rest) = Some n.
Proof.
  intros Hdir Hn Hpn Hrs Hrest.
  set (p := dir ++ n ++ rest).
  assert (Hlen : String.length p = String.length dir + String.length n + String.length rest)
    by (unfold p; rewrite !length_app; lia).
  assert (Hn0 : 0 < String.length n) by (destruct n; simpl; [congruence|lia]).
  assert (Hchars : forall j, String.length dir <= j ->
            is_path_sep (char_at p j) = false).
  { intros j Hj. unfold p. replace j with (String.length dir + (j - String.length dir)) by lia.
    rewrite char_at_app. apply no_sep_char_at. rewrite no_sep_app, plain_no_sep, Hrs; auto. }
  assert (Hstart : basename_start_from p (String.length p) = String.length dir).
  { destruct Hdir as [Hd0|(d & Hd & Hdd)].
    - rewrite (start_skip p 0); [| lia |].
      + now rewrite Hd0.
      + intros j Hj. apply Hchars. rewrite Hd0. simpl. lia.
    - assert (Hld : String.length dir = S (String.length d))
        by (rewrite Hdd, length_app; simpl; lia).
      rewrite (start_skip p (String.length d)); [| lia |].
      + destruct (String.length d) as [|k] eqn:Ek; [destruct d; simpl in Ek; congruence|].
        simpl basename_start_from.
        replace (char_at p (S k)) with "/"%char.
        * rewrite Hld. destruct (String.length p) as [|m0] eqn:E; [lia|]. f_equal. rewrite Nat.min_l; [change (is_path_sep "/") with true; simpl; lia|lia].
        * assert (Hc : char_at ((d ++ "/") ++ n ++ rest) (String.length d + 0) = "/"%char)
            by (rewrite <- app_assoc_str, char_at_app; reflexivity).
          rewrite Nat.add_0_r, Ek in Hc. unfold p. rewrite Hdd. now rewrite Hc.
      + intros j Hj. apply Hchars. lia. }
  assert (Hend : basename_end_from p (String.length p - String.length dir)
                   (String.length dir) (String.length dir)
                 = String.length dir + String.length n - 1).
  { rewrite (end_skip p (String.length n)); [| lia | lia |].
    - replace (String.length p - String.length dir - String.length n)
        with (String.length rest) by lia.
      destruct Hrest as [->|(r & ->)]; [reflexivity|].
      simpl String.length. simpl basename_end_from.
      replace (char_at p (String.length dir + String.length n)) with "."%char; [reflexivity|].
      unfold p. rewrite char_at_app.
      pose proof (char_at_app n (String "." r) 0) as Hc.
      rewrite Nat.add_0_r in Hc. rewrite Hc. reflexivity.
    - intros q Hq. unfold p. rewrite char_at_app, char_at_app_l by exact Hq.
      apply plain_char_at; assumption. }
  unfold _xo_args_basename. fold p.
  replace (Nat.eqb (String.length p) 0) with false by (symmetry; apply Nat.eqb_neq; lia).
  rewrite Hstart, Hend.
  replace (String.length dir + String.length n - 1 - String.length dir + 1)
    with (String.length n) by lia.
  replace (Nat.leb 1 (String.length n)) with true by (symmetry; apply Nat.leb_le; lia).
  unfold p. now rewrite substring_app_mid.
Qed.

Lemma substring_end (s : string) (k : nat) : substring (String.length s) k s = "".
Proof. induction s as [|c s IH]; simpl; [now destruct k|exact IH]. Qed.


Lemma char_at_end (s : string) : char_at s (String.length s) = "000"%char.
Proof. induction s as [|c s IH]; simpl; auto. Qed.

(** X3: a path made of a non-empty part followed by a separator has the empty basename, and [xo_args_create_ctx] then takes the empty string as application name. The single path "/" is excluded: its basename is "/". *)
Theorem basename_trailing_sep (d : string) :
  d <> "" ->
  _xo_args_basename (d ++ "/") = Some ""
  /\ forall (D : Type) rest, exists c : @xo_args_ctx D,
       xo_args_create_ctx (String.append d "/" :: rest) = Some c /\ app_name c = "".
Proof.
  intros Hd.
  assert (Hb : _xo_args_basename (d ++ "/") = Some "").
  { set (p := d ++ "/").
    assert (Hlen : String.length p = S (String.length d))
      by (unfold p; rewrite length_app; simpl; lia).
    assert (Hc : char_at p (String.length d) = "/"%char).
    { unfold p. pose proof (char_at_app d "/" 0) as Hc.
      rewrite Nat.add_0_r in Hc. rewrite Hc. reflexivity. }
    assert (Hs : basename_start_from p (String.length p) = String.length p).
    { rewrite (start_skip p (String.length d)); [| lia |].
      - destruct (String.length d) as [|k] eqn:Ek; [destruct d; simpl in Ek; congruence|].
        simpl basename_start_from. rewrite Hc. rewrite Hlen.
        change (is_path_sep "/") with true. cbv iota. lia.
      - intros j Hj. replace j with (String.length p) by lia. rewrite char_at_end. reflexivity. }
    unfold _xo_args_basename. fold p.
    replace (Nat.eqb (String.length p) 0) with false by (rewrite Hlen; reflexivity).
    rewrite Hs, Nat.sub_diag. simpl basename_end_from. rewrite Nat.sub_diag. simpl Nat.leb.
    cbv iota. now rewrite substring_end. }
  split; [exact Hb|]. intros D rest. eexists. split; [reflexivity|].
  simpl. unfold default_app_name. now rewrite Hb.
Qed.

(** X4: [_xo_args_basename] returns [NULL] exactly for the empty path; its final [NULL] return is never reached otherwise. *)
Theorem basename_null_iff_empty (path : string) :
  _xo_args_basename path = None <-> path = "".
Proof.
  unfold _xo_args_basename. split.
  - destruct (Nat.eqb (String.length path) 0) eqn:E.
    + intros _. apply Nat.eqb_eq in E. now destruct path.
    + replace (Nat.leb 1 _) with true by (symmetry; apply Nat.leb_le; lia). discriminate.
  - intros ->. reflexivity.
Qed.

(** X2: the first character of the path is never tested as a separator: for a stem with no separator and no dot, the basename of ["/" ++ stem] keeps the leading slash. *)
Theorem basename_leading_sep (n : string) :
  plain_name n = true -> _xo_args_basename (String "/" n) = Some (String "/" n).
Proof.
  intros Hn. set (p := String "/" n).
  assert (Hlen : String.length p = S (String.length n)) by reflexivity.
  assert (Hs : basename_start_from p (String.length p) = 0).
  { rewrite (start_skip p 0); [reflexivity | lia |].
    intros j Hj. unfold p. destruct j as [|j]; [lia|].
    change (char_at (String "/" n) (S j)) with (char_at n j).
    apply no_sep_char_at. now apply plain_no_sep. }
  assert (He : basename_end_from p (String.length p - 0) 0 0 = String.length n).
  { rewrite (end_skip p (String.length p)); [| lia | lia |].
    - rewrite Nat.sub_diag. simpl. lia.
    - intros q Hq. simpl. destruct q as [|q]; [reflexivity|].
      unfold p. change (char_at (String "/" n) (S q)) with (char_at n q).
      apply plain_char_at; [exact Hn|]. rewrite Hlen in Hq. lia. }
  unfold _xo_args_basename. fold p. rewrite Hlen. simpl Nat.eqb. cbv iota.
  rewrite <- Hlen, Hs, He. rewrite Nat.sub_0_r.
  replace (Nat.leb 1 (String.length n + 1)) with true by (symmetry; apply Nat.leb_le; lia).
  replace (String.length n + 1) with (String.length p) by (rewrite Hlen; lia).
  now rewrite substring_0_length.
Qed.

(** ** [_xo_args_try_parse_int] and [%lld] *)

Lemma digit_char (d : Z) :
  (0 <= d < 10)%Z -> digit_in_base 10 (ascii_of_nat (48 + Z.to_nat d)) = Some d.
Proof.
  intros H. assert (d = 0 \/ d = 1 \/ d = 2 \/ d = 3 \/ d = 4 \/ d = 5 \/ d = 6
                    \/ d = 7 \/ d = 8 \/ d = 9)%Z as Hd by lia.
  repeat destruct Hd as [-> | Hd]; try reflexivity; subst; reflexivity.
Qed.

Lemma pos_to_dec_digits (f : nat) : forall (p : Z) (acc : string) (a : Z),
  (0 < p < 10 ^ Z.of_nat f)%Z ->
  exists k, 1 <= k /\
    strtoll_digits 10 a (pos_to_dec f p acc)
    = match strtoll_digits 10 (a * 10 ^ Z.of_nat k + p) acc with
      | (v, n, r) => (v, n + k, r)
      end.
Proof.
  induction f as [|f IH]; intros p acc a Hp; [simpl in Hp; lia|].
  assert (Hm : (0 <= p mod 10 < 10)%Z) by (apply Z.mod_pos_bound; lia).
  cbn [pos_to_dec]. destruct (p <? 10)%Z eqn:Hlt.
  - apply Z.ltb_lt in Hlt. exists 1. split; [lia|].
    cbn [strtoll_digits]. rewrite digit_char by exact Hm.
    rewrite Z.mod_small by lia.
    replace (a * 10 ^ Z.of_nat 1 + p)%Z with (a * 10 + p)%Z by (rewrite Z.pow_1_r; lia).
    destruct (strtoll_digits 10 (a * 10 + p) acc) as [[v n] r]. f_equal. f_equal. lia.
  - apply Z.ltb_ge in Hlt.
    assert (Hq : (0 < p / 10 < 10 ^ Z.of_nat f)%Z).
    { split; [apply Z.div_str_pos; lia|].
      apply Z.div_lt_upper_bound; [lia|]. rewrite Nat2Z.inj_succ, Z.pow_succ_r in Hp by lia. lia. }
    destruct (IH (p / 10)%Z (String (ascii_of_nat (48 + Z.to_nat (p mod 10))) acc) a Hq)
      as (k & Hk & ->).
    exists (S k). split; [lia|].
    cbn [strtoll_digits]. rewrite digit_char by exact Hm.
    replace ((a * 10 ^ Z.of_nat k + p / 10) * 10 + p mod 10)%Z
      with (a * 10 ^ Z.of_nat (S k) + p)%Z.
    + destruct (strtoll_digits 10 (a * 10 ^ Z.of_nat (S k) + p) acc) as [[v n] r].
      f_equal. f_equal. lia.
    + rewrite Nat2Z.inj_succ, Z.pow_succ_r by lia.
      pose proof (Z.div_mod p 10 ltac:(lia)). lia.
Qed.

(** The text [pos_to_dec] writes starts with a non-zero digit. *)
Lemma pos_to_dec_first (f : nat) : forall (p : Z) (acc : string),
  (0 < p < 10 ^ Z.of_nat f)%Z ->
  exists d r, (1 <= d <= 9)%Z /\ pos_to_dec f p acc = String (ascii_of_nat (48 + Z.to_nat d)) r.
Proof.
  induction f as [|f IH]; intros p acc Hp; [simpl in Hp; lia|].
  cbn [pos_to_dec]. destruct (p <? 10)%Z eqn:Hlt.
  - apply Z.ltb_lt in Hlt. exists p, acc. rewrite Z.mod_small by lia. split; [lia|reflexivity].
  - apply Z.ltb_ge in Hlt. apply IH.
    split; [apply Z.div_str_pos; lia|].
    apply Z.div_lt_upper_bound; [lia|]. rewrite Nat2Z.inj_succ, Z.pow_succ_r in Hp by lia. lia.
Qed.

Lemma nonzero_digit_char (d : Z) :
  (1 <= d <= 9)%Z ->
  In (ascii_of_nat (48 + Z.to_nat d)) ["1"; "2"; "3"; "4"; "5"; "6"; "7"; "8"; "9"]%char.
Proof.
  intros H. assert (d = 1 \/ d = 2 \/ d = 3 \/ d = 4 \/ d = 5 \/ d = 6
                    \/ d = 7 \/ d = 8 \/ d = 9)%Z as Hd by lia.
  repeat destruct Hd as [-> | Hd]; try subst d; vm_compute; tauto.
Qed.

Ltac eval_isspace :=
  match goal with
  | |- context [isspace ?c] => let b := eval vm_compute in (isspace c) in
                               change (isspace c) with b
  end.

Lemma parse_leading_digit (c : ascii) (r : string) (v : Z) (k : nat) :
  In c ["1"; "2"; "3"; "4"; "5"; "6"; "7"; "8"; "9"]%char ->
  strtoll_digits 10 0 (String c r) = (v, S k, ""%string) ->
  (0 <= v <= 2 ^ 63)%Z ->
  ((v <= INT64_MAX)%Z -> _xo_args_try_parse_int (String c r) = Some v)
  /\ _xo_args_try_parse_int (String "-" (String c r)) = Some (- v)%Z.
Proof.
  intros Hc Hs Hr.
  simpl in Hc.
  repeat destruct Hc as [<- | Hc]; try contradiction;
  (split; [intros Hm|]; unfold _xo_args_try_parse_int, strtoll0; eval_isspace; cbv beta iota;
   rewrite Hs; unfold INT64_MAX, INT64_MIN in *;
   [ replace ((2 ^ 63 - 1 <? v)%Z) with false by (symmetry; apply Z.ltb_ge; lia);
     replace ((v <? - 2 ^ 63)%Z) with false by (symmetry; apply Z.ltb_ge; lia);
     reflexivity
   | replace ((2 ^ 63 - 1 <? - v)%Z) with false by (symmetry; apply Z.ltb_ge; lia);
     replace ((- v <? - 2 ^ 63)%Z) with false by (symmetry; apply Z.ltb_ge; lia);
     reflexivity ]).
Qed.

Lemma pos_to_dec_parse (p : Z) :
  (0 < p <= 2 ^ 63)%Z ->
  ((p <= INT64_MAX)%Z -> _xo_args_try_parse_int (pos_to_dec 20 p "") = Some p)
  /\ _xo_args_try_parse_int (String "-" (pos_to_dec 20 p "")) = Some (- p)%Z.
Proof.
  intros Hp.
  assert (Hb : (0 < p < 10 ^ Z.of_nat 20)%Z) by (simpl Z.of_nat; lia).
  destruct (pos_to_dec_first 20 p "" Hb) as (d & r & Hd & Hpd).
  destruct (pos_to_dec_digits 20 p "" 0 Hb) as (k & Hk & Hdig).
  rewrite Hpd in *. simpl (strtoll_digits 10 _ "") in Hdig.
  destruct k as [|k]; [lia|].
  rewrite ?Z.mul_0_l, ?Z.add_0_l, ?Nat.add_0_l in Hdig.
  apply (parse_leading_digit _ r p k); [now apply nonzero_digit_char | exact Hdig | lia].
Qed.

(** X5: every 64-bit integer printed with [%lld] is parsed back to itself by [_xo_args_try_parse_int]. *)
Theorem int_decimal_round_trip (z : Z) :
  (INT64_MIN <= z <= INT64_MAX)%Z -> _xo_args_try_parse_int (lld z) = Some z.
Proof.
  intros Hz. unfold INT64_MIN, INT64_MAX in Hz. unfold lld.
  destruct (z =? 0)%Z eqn:E0; [apply Z.eqb_eq in E0; subst; reflexivity|].
  apply Z.eqb_neq in E0.
  destruct (z <? 0)%Z eqn:En.
  - apply Z.ltb_lt in En.
    destruct (pos_to_dec_parse (- z) ltac:(lia)) as [_ H].
    rewrite Z.opp_involutive in H. exact H.
  - apply Z.ltb_ge in En.
    apply (pos_to_dec_parse z ltac:(lia)). unfold INT64_MAX. lia.
Qed.

Lemma strtoll0_range (s : string) :
  (INT64_MIN <= fst (fst (fst (strtoll0 s))) <= INT64_MAX)%Z.
Proof.
  unfold strtoll0.
  destruct (match s with String "-" r => (true, r) | String "+" r => (false, r) | _ => (false, s) end)
    as [neg s1].
  destruct (match s1 with
            | String "0" (String x (String d r)) =>
                if (Ascii.eqb x "x" || Ascii.eqb x "X") && is_some (digit_in_base 16 d)
                then (16%Z, String d r) else (8%Z, s1)
            | String "0" _ => (8%Z, s1)
            | _ => (10%Z, s1) end) as [base s2].
  destruct (strtoll_digits base 0 s2) as [[mag nd] rest].
  assert (Hm : (INT64_MIN <= INT64_MAX)%Z) by (compute; discriminate).
  destruct nd as [|nd]; cbv beta iota zeta; cbn [fst].
  - split; compute; discriminate.
  - destruct (INT64_MAX <? (if neg then - mag else mag))%Z eqn:E1; [lia|].
    destruct ((if neg then - mag else mag) <? INT64_MIN)%Z eqn:E2; [lia|].
    apply Z.ltb_ge in E1, E2. lia.
Qed.

(** X6: an integer accepted by [_xo_args_try_parse_int] is in the 64-bit range. *)
Theorem int_parse_in_range (s : string) (z : Z) :
  _xo_args_try_parse_int s = Some z -> (INT64_MIN <= z <= INT64_MAX)%Z.
Proof.
  unfold _xo_args_try_parse_int. destruct s as [|c r]; [discriminate|].
  destruct (isspace c); [discriminate|].
  pose proof (strtoll0_range (String c r)) as H.
  destruct (strtoll0 (String c r)) as [[[v er] e] m]. simpl in H.
  destruct (er || _ || _); [discriminate|]. intros E. inversion E; subst. exact H.
Qed.

(** ** The token matcher *)

Lemma prefix_split (s u : string) :
  String.prefix s u = true -> exists r, u = s ++ r.
Proof.
  revert u. induction s as [|c s IH]; intros [|d u] H; simpl in H.
  - now exists "".
  - now exists (String d u).
  - discriminate.
  - destruct (ascii_dec c d) as [->|]; [|discriminate].
    destruct (IH u H) as [r ->]. now exists r.
Qed.

Lemma drop_cons2 (c d : ascii) (r : string) : drop 2 (String c (String d r)) = r.
Proof. unfold drop. simpl. rewrite Nat.sub_0_r. apply substring_0_length. Qed.

Section Sound.
Context {double : Type}.
Implicit Types (a : @xo_args_arg double).

(** X7: a token matched by [_xo_args_arg_matches_input] is [--name], [--name=v], [-short] or [-short=v], and the match type and matched name say which. *)
Theorem matches_input_sound a t m :
  _xo_args_arg_matches_input a t = Some m ->
  (match_type m = _XO_ARGS_ARG_MATCH_TYPE_NAME /\ matched_name m = name a
     /\ t = "--" ++ name a)
  \/ (match_type m = _XO_ARGS_ARG_MATCH_TYPE_ASSIGN_NAME /\ matched_name m = name a
     /\ exists v, t = "--" ++ name a ++ String "=" v)
  \/ (exists sn, short_name a = Some sn /\ matched_name m = sn
      /\ ((match_type m = _XO_ARGS_ARG_MATCH_TYPE_SHORT_NAME /\ t = "-" ++ sn)
          \/ (match_type m = _XO_ARGS_ARG_MATCH_TYPE_ASSIGN_SHORT_NAME
              /\ exists v, t = "-" ++ sn ++ String "=" v))).
Proof.
  unfold _xo_args_arg_matches_input. intros H.
  destruct t as [|c0 t]; [discriminate|]. cbn [String.length Nat.eqb] in H.
  unfold char_at at 1 in H. cbn [String.get] in H.
  destruct (Ascii.eqb c0 "-") eqn:E0; [|discriminate].
  apply Ascii.eqb_eq in E0. subst c0.
  destruct (Nat.ltb 2 (S (String.length t)) && Ascii.eqb (char_at (String "-" t) 1) "-"
            && String.prefix (name a) (drop 2 (String "-" t))) eqn:EL.
  - apply andb_prop in EL as [EL Hp]. apply andb_prop in EL as [Hl Hc].
    destruct t as [|c1 t]; [discriminate|].
    unfold char_at in Hc. cbn [String.get] in Hc. apply Ascii.eqb_eq in Hc. subst c1.
    rewrite drop_cons2 in Hp. destruct (prefix_split _ _ Hp) as [r ->].
    cbn [String.length] in H. rewrite length_app in H.
    replace (S (S (String.length (name a) + String.length r)) - 2)
      with (String.length (name a) + String.length r) in H by lia.
    destruct r as [|c r].
    + rewrite Nat.add_0_r, Nat.eqb_refl in H. inversion H; subst.
      left. simpl. rewrite append_empty. auto.
    + cbn [String.length] in H.
      replace (Nat.eqb (String.length (name a) + S (String.length r)) (String.length (name a)))
        with false in H by (symmetry; apply Nat.eqb_neq; lia).
      replace (String.length (name a) + 2) with (S (S (String.length (name a) + 0))) in H by lia.
      unfold char_at in H. cbn [String.get] in H. rewrite get_app_r in H. cbn [String.get] in H.
      destruct (Ascii.eqb c "=") eqn:Ec; [|discriminate]. apply Ascii.eqb_eq in Ec. subst c.
      inversion H; subst. right. left. simpl. eauto.
  - destruct (short_name a) as [sn|] eqn:Hs; [|discriminate].
    rewrite drop_cons in H.
    destruct (String.prefix sn t) eqn:Hp; [|discriminate].
    destruct (prefix_split _ _ Hp) as [r ->].
    rewrite length_app in H. cbn [String.length] in H.
    replace (S (String.length sn + String.length r) - 1)
      with (String.length sn + String.length r) in H by lia.
    right. right. exists sn. split; [reflexivity|].
    destruct r as [|c r].
    + rewrite Nat.add_0_r, Nat.eqb_refl in H. inversion H; subst.
      simpl. rewrite append_empty. auto.
    + cbn [String.length] in H.
      replace (Nat.eqb (String.length sn + S (String.length r)) (String.length sn))
        with false in H by (symmetry; apply Nat.eqb_neq; lia).
      replace (String.length sn + 1) with (S (String.length sn + 0)) in H by lia.
      unfold char_at in H. cbn [String.get] in H. rewrite get_app_r in H. cbn [String.get] in H.
      destruct (Ascii.eqb c "=") eqn:Ec; [|discriminate]. apply Ascii.eqb_eq in Ec. subst c.
      inversion H; subst. simpl. eauto.
Qed.


(** X8: for a short name that does not start with ['-'], [-short] and [-short=v] match the argument in short and short-assignment form. *)
Theorem matches_short_forms a sn v :
  short_name a = Some sn -> Ascii.eqb (char_at sn 0) "-" = false ->
  _xo_args_arg_matches_input a ("-" ++ sn)
    = Some (mk_match _XO_ARGS_ARG_MATCH_TYPE_SHORT_NAME sn)
  /\ _xo_args_arg_matches_input a ("-" ++ sn ++ String "=" v)
    = Some (mk_match _XO_ARGS_ARG_MATCH_TYPE_ASSIGN_SHORT_NAME sn).
Proof.
  intros Hs Hc. split.
  - replace ("-" ++ sn) with (String "-" (sn ++ "")) by (now rewrite append_empty).
    rewrite short_token; [reflexivity|exact Hs|].
    now rewrite append_empty.
  - cbn [String.append]. rewrite short_token; [reflexivity|exact Hs|].
    destruct sn as [|c r]; [reflexivity|exact Hc].
Qed.
End Sound.
(** ** Declared arguments *)


Lemma declared_land (fl : Z) :
  Z.land (declared_flags fl) all_types
  = if (Z.land fl all_types =? 0)%Z then XO_ARGS_TYPE_STRING else Z.land fl all_types.
Proof.
  assert (Hf1 : forall f1 : Z,
             Z.land (Z.land f1 (Z.lnot XO_ARGS_ARG_REQUIRED)) all_types = Z.land f1 all_types).
  { intros f1. rewrite <- Z.land_assoc. reflexivity. }
  assert (H1 : Z.land (if (Z.land all_types fl =? 0)%Z then Z.lor fl XO_ARGS_TYPE_STRING else fl) all_types
               = if (Z.land fl all_types =? 0)%Z then XO_ARGS_TYPE_STRING else Z.land fl all_types).
  { rewrite (Z.land_comm all_types fl). destruct (Z.land fl all_types =? 0)%Z eqn:E; [|reflexivity].
    rewrite Z.land_lor_distr_l. apply Z.eqb_eq in E. rewrite E. reflexivity. }
  unfold declared_flags. cbv zeta.
  destruct (Z.land fl (Z.lor XO_ARGS_TYPE_SWITCH XO_ARGS_ARG_REQUIRED)
            =? Z.lor XO_ARGS_TYPE_SWITCH XO_ARGS_ARG_REQUIRED)%Z; [rewrite Hf1|]; exact H1.
Qed.

Lemma type_bits_land (fl : Z) : type_bits fl = type_bits (Z.land fl all_types).
Proof. unfold type_bits. now rewrite <- Z.land_assoc, Z.land_diag. Qed.

Lemma declared_one_type (fl : Z) :
  type_bits fl <= 1 -> one_type_b (Z.land (declared_flags fl) all_types) = true.
Proof.
  rewrite declared_land, type_bits_land.
  assert (Hm : Z.land fl all_types = (fl mod 2 ^ 9)%Z)
    by (change all_types with (Z.ones 9); apply Z.land_ones; lia).
  assert (Hb : (0 <= fl mod 2 ^ 9 < 2 ^ 9)%Z) by (apply Z.mod_pos_bound; lia).
  rewrite Hm. rewrite <- (Z2Nat.id (fl mod 2 ^ 9)%Z) by lia.
  assert (Hall : forallb (fun n => negb (Nat.leb (type_bits (Z.of_nat n)) 1)
                   || one_type_b (if (Z.of_nat n =? 0)%Z then XO_ARGS_TYPE_STRING else Z.of_nat n))
                   (seq 0 512) = true) by (vm_compute; reflexivity).
  rewrite forallb_forall in Hall.
  assert (Hin : In (Z.to_nat (fl mod 2 ^ 9)) (seq 0 512)) by (apply in_seq; lia).
  specialize (Hall _ Hin). intros Hle. apply Nat.leb_le in Hle. rewrite Hle in Hall. exact Hall.
Qed.

Lemma declared_is_array (fl : Z) :
  _xo_args_arg_flag_is_array (declared_flags fl) = _xo_args_arg_flag_is_array fl.
Proof.
  rewrite (is_array_type (declared_flags fl)), (is_array_type fl), declared_land.
  destruct (Z.land fl all_types =? 0)%Z eqn:E; [|reflexivity].
  apply Z.eqb_eq in E. rewrite E. reflexivity.
Qed.

Section Declare.
Context {double : Type}.

(** X9: a successful declaration returns the index [length args] as handle, prints nothing, and appends one argument with the given name, short name and description, no value, exactly one type bit, and an empty array or an unset single value according to its type. *)
Theorem declare_appends (ctx : @xo_args_ctx double) nm sn vt d fl h ctx' :
  xo_args_declare_arg ctx nm sn vt d fl = (Some h, ctx') ->
  h = length (args ctx) /\ printed ctx' = printed ctx /\ argv ctx' = argv ctx
  /\ exists a, args ctx' = (args ctx ++ [a])%list
    /\ name a = nm /\ short_name a = sn /\ description a = d
    /\ has_value a = false /\ wf_arg a = true
    /\ value a = (if _xo_args_arg_flag_is_array (flags a) then Array [] else Single None).
Proof.
  unfold xo_args_declare_arg. intros H.
  destruct (negb (_xo_isalnum_str nm)); [discriminate|].
  destruct (_ && _); [discriminate|].
  destruct (Nat.ltb 1 (type_bits fl)) eqn:Et; [discriminate|].
  apply Nat.ltb_ge in Et.
  destruct (find_conflict nm sn (args ctx)); [discriminate|].
  inversion H; subst. split; [reflexivity|]. split; [reflexivity|]. split; [reflexivity|].
  eexists. split; [reflexivity|]. cbn.
  repeat split; try reflexivity.
  unfold wf_arg. cbn [flags value]. rewrite (declared_one_type fl Et), declared_is_array.
  destruct (_xo_args_arg_flag_is_array fl); reflexivity.
  now rewrite declared_is_array.
Qed.
End Declare.

Lemma one_type_cases (T : Z) :
  one_type_b T = true ->
  T = XO_ARGS_TYPE_STRING \/ T = XO_ARGS_TYPE_SWITCH \/ T = XO_ARGS_TYPE_BOOL
  \/ T = XO_ARGS_TYPE_INT \/ T = XO_ARGS_TYPE_DOUBLE \/ array_type T.
Proof.
  unfold one_type_b, array_type. simpl.
  repeat match goal with
  | |- context [Z.eqb T ?c] => destruct (Z.eqb_spec T c) as [->|]; [intros _; simpl; tauto|]
  end. discriminate.
Qed.

Ltac eval_flags :=
  repeat match goal with
  | |- context [has_flag ?x ?y] =>
      let b := eval vm_compute in (has_flag x y) in
      lazymatch b with true => idtac | false => idtac end;
      change (has_flag x y) with b
  | |- context [_xo_args_arg_flag_is_array ?x] =>
      let b := eval vm_compute in (_xo_args_arg_flag_is_array x) in
      lazymatch b with true => idtac | false => idtac end;
      change (_xo_args_arg_flag_is_array x) with b
  end; cbv beta iota.

Section Step.
Context {double : Type} (pd : string -> option double).
Implicit Types (a : @xo_args_arg double) (ctx : @xo_args_ctx double).

Lemma extends_refl a : arg_extends a a.
Proof. repeat split; auto. exists []. now rewrite app_nil_r. Qed.

Lemma extends_single a hv v :
  (exists x, value a = Single x) -> has_value (set_value a hv v) = true ->
  (exists y, v = Single y) -> arg_extends a (set_value a hv v).
Proof.
  intros [x Hx] Hv [y ->]. repeat split; auto. exists [].
  unfold array_elems. simpl. now rewrite Hx.
Qed.

Lemma wf_set_single a hv x y :
  value a = Single x -> wf_arg (set_value a hv (Single y)) = wf_arg a.
Proof. intros Hv. unfold wf_arg. simpl. now rewrite Hv. Qed.

Lemma wf_set_array a hv l l' :
  value a = Array l -> wf_arg (set_value a hv (Array l')) = wf_arg a.
Proof. intros Hv. unfold wf_arg. simpl. now rewrite Hv. Qed.

Lemma try_parse_wf ctx i a m ok i' a' evs :
  wf_arg a = true ->
  _xo_args_try_parse_arg pd ctx i a m = (ok, i', a', evs) ->
  wf_arg a' = true /\ arg_extends a a'.
Proof.
  intros Hw H. pose proof Hw as Hw'. unfold wf_arg in Hw'. apply andb_prop in Hw' as [Ht Hs].
  remember (Z.land (flags a) all_types) as T eqn:HT. symmetry in HT.
  rewrite (is_array_type (flags a)), HT in Hs.
  destruct (one_type_cases T Ht) as [->|[->|[->|[->|[->|HA]]]]].
  6:{ rewrite (try_parse_arg_array pd ctx i a m T HT HA) in H.
      assert (HT1 : _xo_args_arg_flag_is_array T = true)
        by (destruct HA as [->|[->|[->| ->]]]; reflexivity).
      rewrite HT1 in Hs. destruct (value a) as [x|l] eqn:Hv; [discriminate|].
      destruct (parse_array_shape ctx i a _ _ ok i' a' evs H)
        as [(_ & _ & -> & _)|(_ & _ & new & _ & -> & _)].
      - split; [exact Hw|apply extends_refl].
      - split; [now rewrite (wf_set_array _ _ _ _ Hv)|].
        repeat split; auto. exists new. reflexivity. }
  all: cbn [_xo_args_arg_flag_is_array has_flag] in Hs;
    destruct (value a) as [x|l] eqn:Hv; [|discriminate];
    revert H; unfold _xo_args_try_parse_arg, parse_single; cbv zeta; type_flags HT; eval_flags;
    rewrite ?andb_false_r, ?andb_true_r; intros H;
    repeat match type of H with
    | context [if ?c then _ else _] => destruct c
    | context [match ?x with _ => _ end] => destruct x
    end; inversion H; subst.
  all: try (split; [exact Hw|apply extends_refl]).
  all: try (split; [now rewrite (wf_set_single _ _ _ _ Hv)|apply extends_single; eauto]).
  all: rewrite Hv; split; [now rewrite (wf_set_single _ _ _ _ Hv)|apply extends_single; eauto].
Qed.
End Step.

(** ** Submission *)

Section Submit.
Local Open Scope list_scope.
Context {double : Type} (pd : string -> option double).
Implicit Types (a : @xo_args_arg double) (ctx : @xo_args_ctx double)
  (l : list (@xo_args_arg double)).

Lemma try_parse_true_silent ctx i a m i' a' evs :
  _xo_args_try_parse_arg pd ctx i a m = (true, i', a', evs) -> evs = [].
Proof.
  unfold _xo_args_try_parse_arg, parse_single, parse_array. intros H.
  repeat match type of H with
  | context [_xo_args_slurp ?a1 ?a2 ?a3 ?a4 ?a5 ?a6 ?a7] =>
      let Hs := fresh "Hs" in
      destruct (_xo_args_slurp a1 a2 a3 a4 a5 a6 a7) as [[[? ?] ?] ?] eqn:Hs
  | context [if ?c then _ else _] => destruct c
  | context [match ?x with _ => _ end] => destruct x
  end; inversion H; subst; try reflexivity.
  all: eapply slurp_true_silent; eassumption.
Qed.

Lemma scan_log f ctx i ok ctx' :
  submit_scan pd f ctx i = (ok, ctx') ->
  exists evs, printed ctx' = printed ctx ++ evs /\ (ok = true <-> evs = []).
Proof.
  revert ctx i. induction f as [|f IH]; intros ctx i H; simpl in H.
  - inversion H; subst. exists []. rewrite app_nil_r. tauto.
  - destruct (nth_error (argv ctx) i) as [tok|];
      [|inversion H; subst; exists []; rewrite app_nil_r; tauto].
    destruct (Nat.eqb (String.length tok) 0); [exact (IH _ _ H)|].
    destruct (_ || _).
    { inversion H; subst. eexists. split; [reflexivity|]. split; discriminate. }
    destruct (find_arg_from 0 (args ctx) tok) as [[[k b] m]|];
      [|inversion H; subst; eexists; split; [reflexivity|]; split; discriminate].
    destruct (_xo_args_try_parse_arg pd ctx i b m) as [[[ok' i'] b'] evs0] eqn:Hp.
    destruct ok'.
    + rewrite (try_parse_true_silent _ _ _ _ _ _ _ Hp) in H.
      destruct (IH _ _ H) as (evs & He & Hok). exists evs.
      split; [|exact Hok]. rewrite He. simpl. now rewrite app_nil_r.
    + inversion H; subst. eexists. split.
      * simpl. now rewrite <- app_assoc.
      * split; [discriminate|]. intros E. apply app_eq_nil in E as [_ E]. discriminate.
Qed.

Lemma checks_log ctx h v ok ctx' :
  submit_checks ctx h v = (ok, ctx') ->
  exists evs, printed ctx' = printed ctx ++ evs /\ (ok = true <-> evs = []).
Proof.
  unfold submit_checks. intros H.
  destruct (match xo_args_try_get_bool (deref ctx h) with Some true => true | _ => false end).
  { inversion H; subst. eexists. split; [reflexivity|]. split; discriminate. }
  destruct (_ && _).
  { inversion H; subst. eexists. split; [reflexivity|]. split; discriminate. }
  destruct (first_missing_required (args ctx)).
  - inversion H; subst. eexists. split; [reflexivity|]. split; discriminate.
  - inversion H; subst. exists []. rewrite app_nil_r. tauto.
Qed.

(** X10: after the implicit declarations, [xo_args_submit] only appends to the output, and it returns true exactly when it printed nothing. *)
Theorem submit_quiet_iff ctx :
  exists evs, printed (snd (xo_args_submit pd ctx)) = printed (implicit_ctx ctx) ++ evs
    /\ (fst (xo_args_submit pd ctx) = true <-> evs = []).
Proof.
  unfold xo_args_submit, implicit_ctx.
  destruct (declare_implicit ctx) as [[h v] c2].
  destruct (submit_scan pd (argc c2) c2 1) as [ok c3] eqn:Hs.
  destruct (scan_log _ _ _ _ _ Hs) as (e1 & He1 & Hok1).
  destruct ok.
  - destruct (submit_checks c3 h v) as [ok4 c4] eqn:Hc.
    destruct (checks_log _ _ _ _ _ Hc) as (e2 & He2 & Hok2).
    exists e2. simpl. rewrite He2, He1, (proj1 Hok1 eq_refl), app_nil_r. tauto.
  - exists e1. simpl. split; [exact He1|]. split; [discriminate|].
    intros E. apply Hok1 in E. discriminate.
Qed.

Lemma extends_trans a1 a2 a3 : arg_extends a1 a2 -> arg_extends a2 a3 -> arg_extends a1 a3.
Proof.
  intros (N1 & S1 & T1 & D1 & F1 & V1 & n1 & E1) (N2 & S2 & T2 & D2 & F2 & V2 & n2 & E2).
  repeat split; try congruence; auto.
  exists (n1 ++ n2). now rewrite E2, E1, app_assoc.
Qed.

Lemma list_set_length {A} (l : list A) j (x : A) : length (list_set j x l) = length l.
Proof. revert j. induction l as [|y l IH]; intros [|j]; simpl; auto. Qed.

Lemma forallb_list_set {A} (p : A -> bool) (l : list A) j (x : A) :
  forallb p l = true -> p x = true -> forallb p (list_set j x l) = true.
Proof.
  revert j. induction l as [|y l IH]; intros [|j] H Hx; simpl in *; auto.
  - apply andb_prop in H as [_ H]. now rewrite Hx, H.
  - apply andb_prop in H as [Hy H]. now rewrite Hy, IH.
Qed.


Lemma args_extend_refl l : args_extend l l.
Proof. split; [reflexivity|]. intros j a H. exists a. split; [exact H|apply extends_refl]. Qed.

Lemma args_extend_trans l1 l2 l3 : args_extend l1 l2 -> args_extend l2 l3 -> args_extend l1 l3.
Proof.
  intros [L1 H1] [L2 H2]. split; [congruence|]. intros j a Ha.
  destruct (H1 j a Ha) as (a2 & Ha2 & E2). destruct (H2 j a2 Ha2) as (a3 & Ha3 & E3).
  exists a3. split; [exact Ha3|]. eapply extends_trans; eassumption.
Qed.

Lemma args_extend_set l k b b' :
  nth_error l k = Some b -> arg_extends b b' -> args_extend l (list_set k b' l).
Proof.
  intros Hk Hb. split; [apply list_set_length|]. intros j a Ha.
  destruct (Nat.eq_dec k j) as [->|Hkj].
  - rewrite Hk in Ha. inversion Ha; subst. exists b'. split; [exact (list_set_nth _ _ _ _ Hk)|exact Hb].
  - exists a. rewrite list_set_other by exact Hkj. split; [exact Ha|apply extends_refl].
Qed.

Lemma scan_wf f ctx i ok ctx' :
  forallb wf_arg (args ctx) = true ->
  submit_scan pd f ctx i = (ok, ctx') ->
  forallb wf_arg (args ctx') = true /\ args_extend (args ctx) (args ctx').
Proof.
  revert ctx i. induction f as [|f IH]; intros ctx i Hw H; simpl in H.
  - inversion H; subst. split; [exact Hw|apply args_extend_refl].
  - destruct (nth_error (argv ctx) i) as [tok|];
      [|inversion H; subst; split; [exact Hw|apply args_extend_refl]].
    destruct (Nat.eqb (String.length tok) 0); [exact (IH _ _ Hw H)|].
    destruct (_ || _); [inversion H; subst; split; [exact Hw|apply args_extend_refl]|].
    destruct (find_arg_from 0 (args ctx) tok) as [[[k b] m]|] eqn:Hf;
      [|inversion H; subst; split; [exact Hw|apply args_extend_refl]].
    destruct (find_arg_from_spec _ _ _ _ _ _ Hf) as (_ & Hk & _).
    rewrite Nat.sub_0_r in Hk.
    destruct (_xo_args_try_parse_arg pd ctx i b m) as [[[ok' i'] b'] evs0] eqn:Hp.
    assert (Hwb : wf_arg b = true)
      by (rewrite forallb_forall in Hw; exact (Hw b (nth_error_In _ _ Hk))).
    destruct (try_parse_wf pd _ _ _ _ _ _ _ _ Hwb Hp) as [Hwb' Hext].
    assert (Hw1 : forallb wf_arg (list_set k b' (args ctx)) = true)
      by (apply forallb_list_set; assumption).
    assert (He1 := args_extend_set _ _ _ _ Hk Hext).
    destruct ok'.
    + destruct (IH (print (set_args ctx (list_set k b' (args ctx))) evs0) _ Hw1 H) as [Hw2 He2]. split; [exact Hw2|].
      exact (args_extend_trans _ _ _ He1 He2).
    + inversion H; subst. split; [exact Hw1|exact He1].
Qed.

Lemma declare_wf ctx nm sn vt d fl h ctx' :
  forallb wf_arg (args ctx) = true ->
  xo_args_declare_arg ctx nm sn vt d fl = (h, ctx') -> forallb wf_arg (args ctx') = true.
Proof.
  intros Hw H. destruct h as [h|].
  - destruct (declare_appends _ _ _ _ _ _ _ _ H) as (_ & _ & _ & a & -> & _ & _ & _ & _ & Ha & _).
    rewrite forallb_app, Hw. simpl. now rewrite Ha.
  - revert H. unfold xo_args_declare_arg. intros H.
    repeat match type of H with
    | context [if ?c then _ else _] => destruct c
    | context [match find_conflict ?x ?y ?z with _ => _ end] => destruct (find_conflict x y z)
    end; inversion H; subst; exact Hw.
Qed.

Lemma implicit_wf ctx :
  forallb wf_arg (args ctx) = true -> forallb wf_arg (args (implicit_ctx ctx)) = true.
Proof.
  intros Hw. unfold implicit_ctx, declare_implicit.
  destruct (xo_args_declare_arg ctx _ _ _ _ _) as [h1 c1] eqn:E1.
  pose proof (declare_wf _ _ _ _ _ _ _ _ Hw E1) as Hw1.
  destruct (app_version c1); [|exact Hw1].
  destruct (xo_args_declare_arg c1 _ _ _ _ _) as [h2 c2] eqn:E2.
  exact (declare_wf _ _ _ _ _ _ _ _ Hw1 E2).
Qed.

(** X11: compared with the argument list after the implicit --help/--version declarations of [xo_args_submit] ([implicit_ctx]), and when every argument is well formed, [xo_args_submit] keeps the list: same length, same declarations, a value once set stays set, array elements are only appended, and every argument stays well formed. *)
Theorem submit_extends ctx :
  forallb wf_arg (args ctx) = true ->
  forallb wf_arg (args (snd (xo_args_submit pd ctx))) = true
  /\ args_extend (args (implicit_ctx ctx)) (args (snd (xo_args_submit pd ctx))).
Proof.
  intros Hw. pose proof (implicit_wf ctx Hw) as Hw2. revert Hw2.
  unfold xo_args_submit, implicit_ctx.
  destruct (declare_implicit ctx) as [[h v] c2]. intros Hw2.
  destruct (submit_scan pd (argc c2) c2 1) as [ok c3] eqn:Hs.
  destruct (scan_wf _ _ _ _ _ Hw2 Hs) as [Hw3 He3].
  destruct ok; [|exact (conj Hw3 He3)].
  destruct (submit_checks c3 h v) as [ok4 c4] eqn:Hc.
  pose proof (submit_checks_args c3 h v) as Ha. rewrite Hc in Ha. simpl in Ha.
  simpl. rewrite Ha. exact (conj Hw3 He3).
Qed.

Lemma find_arg_from_none (all : list (@xo_args_arg double)) tok j :
  any_arg_matches all tok = false -> find_arg_from j all tok = None.
Proof.
  revert j. induction all as [|a r IH]; intros j H; simpl in *; [reflexivity|].
  apply orb_false_iff in H as [Ha Hr].
  destruct (_xo_args_arg_matches_input a tok); [discriminate|]. now apply IH.
Qed.

Lemma scan_skip_empty f ctx i es :
  Forall (fun e => e = "") es ->
  (forall k, k < length es -> nth_error (argv ctx) (i + k) = Some "") ->
  submit_scan pd (length es + f) ctx i = submit_scan pd f ctx (i + length es).
Proof.
  revert i. induction es as [|e es IH]; intros i He Hn.
  - now rewrite Nat.add_0_r.
  - inversion He; subst. simpl.
    rewrite <- (Nat.add_0_r i) at 1. rewrite (Hn 0) by (simpl; lia). simpl.
    rewrite IH; [f_equal; lia|exact H2|].
    intros k Hk. rewrite <- (Hn (S k)) by (simpl; lia). f_equal. lia.
Qed.

(** X12: when the first non-empty token after [argv[0]] is a single character or matches no declared argument, [xo_args_submit] returns false after printing the unknown-argument message and the try-help hint. *)
Theorem submit_unknown_first ctx p es t rest :
  argv ctx = p :: es ++ t :: rest ->
  Forall (fun e => e = "") es -> t <> "" ->
  (String.length t = 1 \/ any_arg_matches (args (implicit_ctx ctx)) t = false) ->
  xo_args_submit pd ctx
  = (false, print (implicit_ctx ctx) [EvUnknown t; EvTryHelp (app_name ctx)]).
Proof.
  intros Hargv Hes Ht Hu.
  rewrite submit_scanned. unfold scanned, implicit_ctx in *.
  destruct (declare_implicit ctx) as [[h v] c2] eqn:Ed.
  destruct (declare_implicit_shape _ _ _ _ Ed) as (Ha & Hn & _).
  assert (Hl : argc c2 = length es + S (S (length rest))).
  { unfold argc. rewrite Ha, Hargv. simpl. rewrite List.length_app. simpl. lia. }
  assert (Hnth : forall k, k < length es -> nth_error (argv c2) (1 + k) = Some "").
  { intros k Hk. rewrite Ha, Hargv. simpl. rewrite nth_error_app1 by exact Hk.
    rewrite Forall_forall in Hes. destruct (nth_error es k) eqn:E.
    - f_equal. apply Hes. eapply nth_error_In. exact E.
    - apply nth_error_None in E. lia. }
  assert (Hs : submit_scan pd (argc c2) c2 1
               = (false, print c2 [EvUnknown t; EvTryHelp (app_name c2)])).
  { rewrite Hl, (scan_skip_empty _ _ _ es Hes Hnth). cbn [submit_scan].
    assert (Hi : nth_error (argv c2) (1 + length es) = Some t).
    { rewrite Ha, Hargv. simpl. rewrite <- (Nat.add_0_r (length es)).
      rewrite nth_error_app_len. reflexivity. }
    rewrite Hi.
    destruct t as [|c t']; [congruence|]. cbn [String.length Nat.eqb].
    destruct Hu as [Hu|Hu].
    - simpl in Hu. injection Hu as Hu. rewrite Hu. reflexivity.
    - destruct (Nat.eqb (String.length t') 0 || _); [reflexivity|].
      rewrite find_arg_from_none by exact Hu. reflexivity. }
  cbn [fst snd]. rewrite Hs. cbn [fst snd]. now rewrite Hn.
Qed.
End Submit.

(** ** The array buffer *)

Lemma firstn_list_set {A} (l : list A) (n : nat) (x : A) :
  n < length l -> firstn (S n) (list_set n x l) = (firstn n l ++ [x])%list.
Proof.
  revert n. induction l as [|y l IH]; intros [|n] H; simpl in *; try lia; auto.
  rewrite IH by lia. reflexivity.
Qed.


Section Buffer.
Local Open Scope list_scope.
Context {X : Type}.
Implicit Types (arr : xo_array X) (vs : list X) (v : X).

Lemma push_holds arr vs v :
  buffer_holds arr vs -> buffer_holds (_xo_args_arg_array_push arr v) (vs ++ [v]).
Proof.
  intros (Hs & Hl & Hle & Hf & Hr). unfold _xo_args_arg_array_push.
  destruct (Nat.eqb_spec (array_reserved arr) 0) as [H0|H0].
  - destruct Hr as [[_ ->]|(k & Hk & _)]; [|pose proof (Nat.pow_nonzero 2 (S k)); lia].
    simpl. refine (conj _ (conj _ (conj _ (conj _ _)))); cbn; auto. right. exists 0. auto.
  - destruct Hr as [[Hz _]|(k & Hk & Hb)]; [lia|].
    destruct (Nat.eqb_spec (array_reserved arr) (array_size arr)) as [Hq|Hq].
    + unfold realloc_cells. cbn [array_reserved array_size array].
      rewrite firstn_all2 by lia.
      refine (conj _ (conj _ (conj _ (conj _ _)))); cbn [array_reserved array_size array].
      * rewrite List.length_app. simpl. lia.
      * rewrite list_set_length, List.length_app, repeat_length. lia.
      * lia.
      * rewrite firstn_list_set by (rewrite List.length_app, repeat_length; lia).
        rewrite firstn_app, Hl, <- Hq, Nat.sub_diag, firstn_O, app_nil_r.
        rewrite <- Hl, firstn_all. rewrite <- Hq, <- Hl, firstn_all in Hf.
        now rewrite Hf, map_app.
      * right. exists (S k). split; [rewrite Hk; simpl; lia|]. right. lia.
    + cbn [array_reserved array_size array].
      refine (conj _ (conj _ (conj _ (conj _ _)))); cbn [array_reserved array_size array].
      * rewrite List.length_app. simpl. lia.
      * rewrite list_set_length. exact Hl.
      * lia.
      * rewrite firstn_list_set by lia. now rewrite Hf, map_app.
      * right. exists k. split; [exact Hk|]. destruct Hb; [left|right]; lia.
Qed.

(** X13: pushing values one by one onto a fresh array buffer gives [array_size] equal to their number, the first [array_size] cells holding them in order, and [array_reserved] a power of two that is 2 or less than twice the size. *)
Theorem array_push_contents (vs : list X) :
  let arr := fold_left _xo_args_arg_array_push vs declared_array in
  array_size arr = length vs /\ length (array arr) = array_reserved arr
  /\ firstn (array_size arr) (array arr) = map Some vs
  /\ (vs <> [] -> exists k, array_reserved arr = 2 ^ S k
        /\ (array_reserved arr = 2 \/ array_reserved arr < 2 * length vs)).
Proof.
  assert (H : forall vs0 arr, buffer_holds arr vs0 ->
            buffer_holds (fold_left _xo_args_arg_array_push vs arr) (vs0 ++ vs)).
  { induction vs as [|v vs IH]; intros vs0 arr Ha; simpl; [now rewrite app_nil_r|].
    replace (vs0 ++ v :: vs) with ((vs0 ++ [v]) ++ vs) by (now rewrite <- app_assoc). apply IH, push_holds, Ha. }
  assert (H0 : buffer_holds (X:=X) declared_array []) by (repeat split; left; auto).
  destruct (H [] declared_array H0) as (Hs & Hl & Hle & Hf & Hr). cbn [app] in *.
  cbv zeta. refine (conj Hs (conj Hl (conj Hf _))).
  intros Hne. destruct Hr as [[_ E]|(k & Hk & Hb)]; [congruence|].
  exists k. rewrite <- Hs. auto.
Qed.
End Buffer.

(** ** The help table *)

Lemma substring_length_le (n m : nat) (s : string) :
  String.length (substring n m s) <= String.length s.
Proof.
  revert n m. induction s as [|c s IH]; intros [|n] [|m]; simpl; auto; try lia;
    match goal with |- context [substring ?x ?y s] => specialize (IH x y) end; lia.
Qed.

Lemma spaces_length (n : nat) : String.length (spaces n) = n.
Proof. induction n as [|n IH]; simpl; auto. Qed.

Section Help.
Context {double : Type}.
Implicit Types (a : @xo_args_arg double).

Lemma left_len_needed a : String.length (arg_help_left a) + 3 <= arg_column_space_needed a.
Proof.
  unfold arg_help_left, arg_column_space_needed, take.
  destruct (short_name a) as [sn|];
    [rewrite (String.eqb_sym sn (name a)); destruct (_ && _)|];
    destruct (Nat.eqb (String.length (tip_text a)) 0) eqn:Et; cbn [negb];
    match goal with
    | |- String.length (substring 0 127 ?x) + 3 <= _ =>
        pose proof (substring_length_le 0 127 x) as Hl
    end;
    repeat (rewrite length_app in Hl; cbn [String.length] in Hl);
    cbn [String.length] in Hl; try apply Nat.eqb_neq in Et; lia.
Qed.

Lemma width_fold (all : list (@xo_args_arg double)) (w : nat) :
  w <= fold_left (fun w a => if Nat.ltb w (arg_column_space_needed a)
                             then arg_column_space_needed a else w) all w
  /\ forall a, In a all ->
     arg_column_space_needed a <= fold_left (fun w a => if Nat.ltb w (arg_column_space_needed a)
                             then arg_column_space_needed a else w) all w.
Proof.
  revert w. induction all as [|b r IH]; intros w; simpl; [split; [lia|tauto]|].
  set (w' := if Nat.ltb w (arg_column_space_needed b) then arg_column_space_needed b else w).
  assert (Hw : w <= w' /\ arg_column_space_needed b <= w')
    by (unfold w'; destruct (Nat.ltb_spec w (arg_column_space_needed b)); lia).
  destruct (IH w') as [H1 H2]. split; [lia|].
  intros a [->|Ha]; [lia|]. exact (H2 a Ha).
Qed.

(** X14: every row of the argument table pads its left cell to exactly [left_column_width] characters, with at least three spaces before the description. *)
Theorem help_row_aligned (all : list (@xo_args_arg double)) a :
  In a all ->
  exists pad, 3 <= pad
    /\ String.length (arg_help_left a ++ spaces pad) = left_column_width all
    /\ _xo_args_print_arg_help a (left_column_width all)
       = EvText (arg_help_left a ++ spaces pad)
         :: (match description a with Some d => [EvText d] | None => [] end)
         ++ [EvText (String "010" "")].
Proof.
  intros Hin. pose proof (left_len_needed a) as Hn.
  destruct (width_fold all 0) as [_ Hw]. specialize (Hw a Hin).
  fold (left_column_width all) in Hw.
  exists (left_column_width all - String.length (arg_help_left a)).
  split; [lia|]. split.
  - rewrite length_app, spaces_length. lia.
  - unfold _xo_args_print_arg_help.
    destruct (Nat.ltb_spec (left_column_width all) (String.length (arg_help_left a))); [lia|].
    reflexivity.
Qed.
End Help.

(** ** Values read back *)

Lemma drop_app (p s : string) : drop (String.length p) (p ++ s) = s.
Proof.
  induction p as [|c p IH].
  - unfold drop. simpl. rewrite Nat.sub_0_r. apply substring_0_length.
  - unfold drop in *. simpl. exact IH.
Qed.

Lemma drop_long_assign (nm v : string) :
  drop (3 + String.length nm) ("--" ++ nm ++ String "=" v) = v.
Proof.
  replace ("--" ++ nm ++ String "=" v) with (("--" ++ nm ++ "=") ++ v).
  - replace (3 + String.length nm) with (String.length ("--" ++ nm ++ "="))
      by (simpl; rewrite length_app; simpl; lia).
    apply drop_app.
  - simpl. f_equal. f_equal. induction nm as [|c nm IH]; simpl; congruence.
Qed.

Lemma drop_short_assign (sn v : string) :
  drop (2 + String.length sn) ("-" ++ sn ++ String "=" v) = v.
Proof.
  replace ("-" ++ sn ++ String "=" v) with (("-" ++ sn ++ "=") ++ v).
  - replace (2 + String.length sn) with (String.length ("-" ++ sn ++ "="))
      by (simpl; rewrite length_app; simpl; lia).
    apply drop_app.
  - simpl. f_equal. induction sn as [|c sn IH]; simpl; congruence.
Qed.

Section Getters.
Context {double : Type} (pd : string -> option double).
Implicit Types (a : @xo_args_arg double) (ctx : @xo_args_ctx double).


Lemma value_source_single ctx i a m v (parse : string -> option (@xo_scalar double)) e1 e2 x :
  value_source ctx i a m v -> parse v = Some x ->
  exists i', parse_single ctx i a m parse e1 e2 = (true, i', set_value a true (Single (Some x)), []).
Proof.
  intros Hs Hp. unfold parse_single.
  destruct Hs as [[[->|[sn ->]] Hn]|[[-> Hn]|[sn [-> Hn]]]]; cbn [is_assign match_type].
  1,2: rewrite Hn, Hp; eauto.
  all: rewrite (nth_error_nth _ _ _ Hn); unfold assign_offset; cbn [match_type matched_name].
  - rewrite drop_long_assign, Hp. eauto.
  - rewrite drop_short_assign, Hp. eauto.
Qed.

(** X15: for an unset int argument, a 64-bit integer printed with [%lld] as the next token or after ['='] is parsed without error and read back by [xo_args_try_get_int]. *)
Theorem int_value_round_trip ctx i a m z :
  Z.land (flags a) all_types = XO_ARGS_TYPE_INT -> has_value a = false ->
  (INT64_MIN <= z <= INT64_MAX)%Z ->
  value_source ctx i a m (lld z) ->
  exists i' a', _xo_args_try_parse_arg pd ctx i a m = (true, i', a', [])
    /\ xo_args_try_get_int (Some a') = Some z.
Proof.
  intros HT Hv Hz Hs.
  assert (Hp : parse_int_scalar (lld z) = Some (@XInt double z))
    by (unfold parse_int_scalar; now rewrite int_decimal_round_trip).
  destruct (value_source_single ctx i a m _ _ (EvInvalidInt (take (assign_offset m - 1) (nth i (argv ctx) "")))
              (EvInvalidInt (nth i (argv ctx) "")) _ Hs Hp) as [i' Hr].
  exists i', (set_value a true (Single (Some (XInt z)))). split.
  - unfold _xo_args_try_parse_arg. cbv zeta. rewrite Hv. type_flags HT. eval_flags. exact Hr.
  - unfold xo_args_try_get_int. cbn [flags set_value has_value]. type_flags HT. reflexivity.
Qed.

(** X16: for an unset string argument, any text as the next token or after ['='], even one that looks like a flag, is stored as is and read back by [xo_args_try_get_string]. *)
Theorem string_value_verbatim ctx i a m v :
  Z.land (flags a) all_types = XO_ARGS_TYPE_STRING -> has_value a = false ->
  value_source ctx i a m v ->
  exists i' a', _xo_args_try_parse_arg pd ctx i a m = (true, i', a', [])
    /\ xo_args_try_get_string (Some a') = Some v.
Proof.
  intros HT Hv Hs.
  destruct (value_source_single ctx i a m v parse_string (EvNoValue (nth i (argv ctx) "")) (EvNoValue (nth i (argv ctx) "")) _ Hs eq_refl) as [i' Hr].
  exists i', (set_value a true (Single (Some (XString v)))). split.
  - unfold _xo_args_try_parse_arg. cbv zeta. rewrite Hv. type_flags HT. eval_flags. exact Hr.
  - unfold xo_args_try_get_string. cbn [flags set_value has_value value]. type_flags HT. reflexivity.
Qed.
End Getters.

(* ------------------------------------------------------------------------- *)
(** ** Concrete instances of the further properties *)

Lemma basename_stem_witness :
  _xo_args_basename ("/a/b/" ++ "c" ++ ".e") = Some "c".
Proof.
  apply basename_stem.
  - right. exists "/a/b". split; [discriminate|reflexivity].
  - discriminate.
  - reflexivity.
  - reflexivity.
  - right. exists "e". reflexivity.
Defined.

Lemma basename_leading_sep_witness :
  _xo_args_basename (String "/" "abc") = Some (String "/" "abc").
Proof. apply basename_leading_sep. reflexivity. Defined.

Lemma basename_trailing_sep_witness :
  _xo_args_basename ("/a/b/c" ++ "/") = Some ""
  /\ exists c : @xo_args_ctx unit,
       xo_args_create_ctx (String.append "/a/b/c" "/" :: ["x"]) = Some c /\ app_name c = "".
Proof.
  destruct (basename_trailing_sep "/a/b/c" ltac:(discriminate)) as [H1 H2].
  split; [exact H1|]. exact (H2 unit ["x"]).
Defined.

Lemma int_decimal_round_trip_witness :
  _xo_args_try_parse_int (lld (-9223372036854775808)) = Some (-9223372036854775808)%Z.
Proof.
  apply int_decimal_round_trip. split; vm_compute; intro H; discriminate H.
Defined.

Lemma int_parse_in_range_witness :
  _xo_args_try_parse_int "57005" = Some 57005%Z /\ (INT64_MIN <= 57005 <= INT64_MAX)%Z.
Proof.
  split; [vm_compute; reflexivity|].
  apply (int_parse_in_range "57005"). vm_compute. reflexivity.
Defined.

Lemma matches_input_sound_witness :
  _xo_args_arg_matches_input name_arg "--name=x"
    = Some (mk_match _XO_ARGS_ARG_MATCH_TYPE_ASSIGN_NAME "name")
  /\ exists v, "--name=x" = "--" ++ name name_arg ++ String "=" v.
Proof.
  split; [vm_compute; reflexivity|].
  destruct (matches_input_sound name_arg "--name=x" _ eq_refl)
    as [(H & _)|[(_ & _ & H)|(sn & _ & _ & [(H & _)|(H & _)])]];
    try discriminate H; exact H.
Defined.

Lemma matches_short_forms_witness :
  _xo_args_arg_matches_input name_arg ("-" ++ "n")
    = Some (mk_match _XO_ARGS_ARG_MATCH_TYPE_SHORT_NAME "n")
  /\ _xo_args_arg_matches_input name_arg ("-" ++ "n" ++ String "=" "x")
    = Some (mk_match _XO_ARGS_ARG_MATCH_TYPE_ASSIGN_SHORT_NAME "n").
Proof. exact (matches_short_forms name_arg "n" "x" eq_refl eq_refl). Defined.

Lemma declare_appends_witness :
  fst (xo_args_declare_arg (setup ["prog"] None []) "foo" (Some "f") None None
         XO_ARGS_TYPE_INT_ARRAY) = Some 0
  /\ exists a, args (snd (xo_args_declare_arg (setup ["prog"] None []) "foo" (Some "f") None None
                          XO_ARGS_TYPE_INT_ARRAY)) = [a]
       /\ value a = Array [].
Proof.
  split; [vm_compute; reflexivity|].
  destruct (declare_appends (setup ["prog"] None []) "foo" (Some "f") None None
              XO_ARGS_TYPE_INT_ARRAY 0
              (snd (xo_args_declare_arg (setup ["prog"] None []) "foo" (Some "f") None None
                      XO_ARGS_TYPE_INT_ARRAY)) eq_refl)
    as (_ & _ & _ & a & Ha & _ & _ & _ & _ & _ & Hv).
  exists a. split; [exact Ha|]. rewrite Hv.
  assert (Hf : flags a = XO_ARGS_TYPE_INT_ARRAY).
  { change (setup ["prog"] None []) with (mk_ctx (double:=unit) ["prog"] "prog" None None [] []) in Ha.
    vm_compute in Ha. injection Ha as <-. reflexivity. }
  rewrite Hf. reflexivity.
Defined.

Lemma submit_extends_witness :
  forallb wf_arg (args (setup ["prog"; "--foo"; "1"; "2"] None
                          [("foo", None, XO_ARGS_TYPE_INT_ARRAY)])) = true
  /\ length (args (snd (run ["prog"; "--foo"; "1"; "2"] [("foo", None, XO_ARGS_TYPE_INT_ARRAY)])))
     = length (args (implicit_ctx (setup ["prog"; "--foo"; "1"; "2"] None
                                    [("foo", None, XO_ARGS_TYPE_INT_ARRAY)]))).
Proof.
  split; [vm_compute; reflexivity|].
  destruct (submit_extends no_strtod
              (setup ["prog"; "--foo"; "1"; "2"] None [("foo", None, XO_ARGS_TYPE_INT_ARRAY)])
              ltac:(vm_compute; reflexivity)) as [_ [Hl _]].
  exact Hl.
Defined.

Lemma submit_unknown_first_witness :
  let c := setup ["prog"; ""; "file.txt"; "--x"] None [("x", None, XO_ARGS_TYPE_STRING)] in
  xo_args_submit no_strtod c
  = (false, print (implicit_ctx c) [EvUnknown "file.txt"; EvTryHelp (app_name c)]).
Proof.
  intros c.
  apply (submit_unknown_first no_strtod c "prog" [""] "file.txt" ["--x"]).
  - vm_compute. reflexivity.
  - repeat constructor.
  - discriminate.
  - right. vm_compute. reflexivity.
Defined.

Lemma array_push_contents_witness :
  array_reserved (fold_left _xo_args_arg_array_push [1; 2; 3] declared_array) = 4
  /\ firstn 3 (array (fold_left _xo_args_arg_array_push [1; 2; 3] declared_array))
     = [Some 1; Some 2; Some 3].
Proof.
  destruct (array_push_contents [1; 2; 3]) as (Hs & _ & Hf & Hr).
  split; [vm_compute; reflexivity|].
  transitivity (map Some [1; 2; 3]); [rewrite <- Hf, Hs; reflexivity|reflexivity].
Defined.

Lemma help_row_aligned_witness :
  exists pad, 3 <= pad
    /\ String.length (arg_help_left name_arg ++ spaces pad)
       = left_column_width [name_arg; count_arg].
Proof.
  destruct (help_row_aligned [name_arg; count_arg] name_arg ltac:(left; reflexivity))
    as (pad & Hp & Hl & _).
  exists pad. split; [exact Hp|exact Hl].
Defined.

Lemma int_value_round_trip_witness :
  exists i' a', _xo_args_try_parse_arg no_strtod values_ctx 3 count_arg
                  (mk_match _XO_ARGS_ARG_MATCH_TYPE_ASSIGN_SHORT_NAME "c") = (true, i', a', [])
    /\ xo_args_try_get_int (Some a') = Some (-9223372036854775808)%Z.
Proof.
  apply int_value_round_trip.
  - reflexivity.
  - reflexivity.
  - split; vm_compute; intro H; discriminate H.
  - right. right. exists "c". split; [reflexivity|]. vm_compute. reflexivity.
Defined.

Lemma string_value_verbatim_witness :
  exists i' a', _xo_args_try_parse_arg no_strtod values_ctx 1 name_arg
                  (mk_match _XO_ARGS_ARG_MATCH_TYPE_NAME "name") = (true, i', a', [])
    /\ xo_args_try_get_string (Some a') = Some "--count".
Proof.
  apply string_value_verbatim.
  - reflexivity.
  - reflexivity.
  - left. split; [left; reflexivity|reflexivity].
Defined.
